(** * rt1: first-order radiative transfer, phase functions and Legendre expansions

    A shallow embedding of [rt1/scatter.py], [rt1/volume.py] and [rt1/rt1.py].

    Modelling conventions.
    - sympy expressions are an abstract syntax tree [expr]; literals carry an
      exact rational ([Q]), [pi] is a constructor.  sympy's automatic
      canonicalisation (flattening, dropping a zero summand, ordering of
      arguments) is not modelled: syntactic results are given as the
      constructors the source applies, and value-level statements go through
      the denotation [eval] into the reals.
    - Python floats are idealised as exact numbers ([Q] inside expressions and
      for weights, [R] in the numeric code of [rt1.py]); rounding is not
      modelled.
    - Python exceptions are an explicit error monad [py]. *)

From Stdlib Require Import List String Ascii ZArith QArith Qabs Reals Lra Lia Bool Permutation.
From Stdlib Require Import Qreals.
Import ListNotations.

(** ** Exceptions *)

Module Py.

Inductive exn : Type :=
| NameError (name : string)
| AttributeError (attr : string)
| AssertionError (msg : string)
| IndexError
| ValueError (msg : string).

Inductive py (A : Type) : Type :=
| Ok (a : A)
| Raise (e : exn).

Arguments Ok {A} a.
Arguments Raise {A} e.

Definition bind {A B : Type} (m : py A) (k : A -> py B) : py B :=
  match m with
  | Ok a => k a
  | Raise e => Raise e
  end.

(** A list comprehension whose element expression may raise. *)
Fixpoint mapM {A B : Type} (f : A -> py B) (l : list A) : py (list B) :=
  match l with
  | [] => Ok []
  | x :: xs => bind (f x) (fun y => bind (mapM f xs) (fun ys => Ok (y :: ys)))
  end.

(** A [for] loop threading an accumulator, stopping at the first exception. *)
Fixpoint foldM {A S : Type} (body : S -> A -> py S) (l : list A) (s : S) : py S :=
  match l with
  | [] => Ok s
  | x :: xs => bind (body s x) (foldM body xs)
  end.

Definition assert (b : bool) (msg : string) : py unit :=
  if b then Ok tt else Raise (AssertionError msg).

Definition is_ok {A : Type} (m : py A) : bool :=
  match m with Ok _ => true | Raise _ => false end.

End Py.

Import Py.

Notation "x <- c1 ;; c2" := (Py.bind c1 (fun x => c2))
  (at level 61, c1 at next level, right associativity).
Notation "c1 ;;; c2" := (Py.bind c1 (fun _ => c2))
  (at level 61, right associativity).

(** ** Symbolic expressions (the fragment of sympy the sources build) *)

Module Sym.

Inductive expr : Type :=
| Num (q : Q)                          (* a Python float or int *)
| Pi                                   (* sp.pi *)
| Symbol (name : string)               (* sp.Symbol(name) *)
| Add (x y : expr)
| Sub (x y : expr)
| Mul (x y : expr)
| Div (x y : expr)
| Pow (x y : expr)
| Cos (x : expr)
| Sin (x : expr)
| KroneckerDelta (i j : expr)
| legendre (n x : expr)                (* sp.legendre(n, x) *)
| Sum (body : expr) (var : string) (lo hi : Z).  (* sp.Sum(body, (var, lo, hi)) *)

(** Legendre polynomials by Bonnet's recursion:
    (k+2) P_{k+2}(x) = (2k+3) x P_{k+1}(x) - (k+1) P_k(x). *)
Fixpoint legendre_pair (n : nat) (x : R) : R * R :=
  match n with
  | O => (1, x)%R
  | S k =>
      let '(p0, p1) := legendre_pair k x in
      (p1, ((2 * INR k + 3) * x * p1 - (INR k + 1) * p0) / (INR k + 2))%R
  end.

Definition LegendreP (n : nat) (x : R) : R := fst (legendre_pair n x).

(** [x ** y]: an integral exponent is a repeated product (so that [0 ** 0] is
    1, as in Python and sympy), any other exponent goes through [exp]/[ln]. *)
Definition rpow (x y : R) : R :=
  if Req_dec_T y (IZR (Int_part y)) then powerRZ x (Int_part y) else Rpower x y.

Definition delta (x y : R) : R :=
  if Req_dec_T x y then 1%R else 0%R.

Definition env := string -> R.

Definition upd (rho : env) (s : string) (v : R) : env :=
  fun s' => if String.eqb s s' then v else rho s'.

(** Sum of [f lo, f (lo+1), ...] over [len] consecutive integers. *)
Fixpoint sum_from (f : Z -> R) (lo : Z) (len : nat) : R :=
  match len with
  | O => 0%R
  | S k => (f lo + sum_from f (lo + 1) k)%R
  end.

(** Numeric value of an expression once every free symbol has a value
    (what [.evalf()] or [lambdify] computes after substitution). *)
Fixpoint eval (rho : env) (e : expr) : R :=
  match e with
  | Num q => Q2R q
  | Pi => PI
  | Symbol s => rho s
  | Add x y => (eval rho x + eval rho y)%R
  | Sub x y => (eval rho x - eval rho y)%R
  | Mul x y => (eval rho x * eval rho y)%R
  | Div x y => (eval rho x / eval rho y)%R
  | Pow x y => rpow (eval rho x) (eval rho y)
  | Cos x => cos (eval rho x)
  | Sin x => sin (eval rho x)
  | KroneckerDelta i j => delta (eval rho i) (eval rho j)
  | legendre n x => LegendreP (Z.to_nat (Int_part (eval rho n))) (eval rho x)
  | Sum body v lo hi =>
      sum_from (fun k => eval (upd rho v (IZR k)) body) lo (Z.to_nat (hi - lo + 1))
  end.

(** [e.xreplace({Symbol(s): v})]: structural replacement. *)
Fixpoint xreplace (s : string) (v : expr) (e : expr) : expr :=
  match e with
  | Num _ | Pi => e
  | Symbol s' => if String.eqb s s' then v else e
  | Add x y => Add (xreplace s v x) (xreplace s v y)
  | Sub x y => Sub (xreplace s v x) (xreplace s v y)
  | Mul x y => Mul (xreplace s v x) (xreplace s v y)
  | Div x y => Div (xreplace s v x) (xreplace s v y)
  | Pow x y => Pow (xreplace s v x) (xreplace s v y)
  | Cos x => Cos (xreplace s v x)
  | Sin x => Sin (xreplace s v x)
  | KroneckerDelta i j => KroneckerDelta (xreplace s v i) (xreplace s v j)
  | legendre n x => legendre (xreplace s v n) (xreplace s v x)
  | Sum body var lo hi => Sum (xreplace s v body) var lo hi
  end.

(** [e.expand()]: products are distributed over sums. *)
Fixpoint distr_r (a b : expr) : expr :=
  match b with
  | Add b1 b2 => Add (distr_r a b1) (distr_r a b2)
  | _ => Mul a b
  end.

Fixpoint distr_l (a b : expr) : expr :=
  match a with
  | Add a1 a2 => Add (distr_l a1 b) (distr_l a2 b)
  | _ => distr_r a b
  end.

Fixpoint expand (e : expr) : expr :=
  match e with
  | Add x y => Add (expand x) (expand y)
  | Mul x y => distr_l (expand x) (expand y)
  | _ => e
  end.

End Sym.

Import Sym.

(** ** scatter.py: the base object of surface and volume scatterers *)

Module Scatter.

(** [self.scat_angle(t_0, t_ex, p_0, p_ex, a)], the generalised scattering
    angle.  [Volume] calls it on [self], [scatter.py] does not define it: the
    development is parametric in it. *)
Class ScatAngle : Type :=
  scat_angle : expr -> expr -> expr -> expr -> list Q -> expr.

(** Modelled from the spec: [scat_angle], which [scatter.py] lacks, as
    a0 cos(t_0) cos(t_ex) + a1 sin(t_0) sin(t_ex) cos(p_0) cos(p_ex)
    + a2 sin(t_0) sin(t_ex) sin(p_0) sin(p_ex). *)
Definition scat_angle_spec : ScatAngle :=
  fun t_0 t_ex p_0 p_ex a =>
    Add (Add (Mul (Mul (Num (nth 0 a 0)) (Cos t_0)) (Cos t_ex))
             (Mul (Mul (Mul (Mul (Num (nth 1 a 0)) (Sin t_0)) (Sin t_ex)) (Cos p_0)) (Cos p_ex)))
        (Mul (Mul (Mul (Mul (Num (nth 2 a 0)) (Sin t_0)) (Sin t_ex)) (Sin p_0)) (Sin p_ex)).

Definition thetaBRDF (thetai thetas phii phis : expr) : expr :=
  Add (Add (Mul (Cos thetai) (Cos thetas))
           (Mul (Mul (Mul (Sin thetai) (Sin thetas)) (Cos phii)) (Cos phis)))
      (Mul (Mul (Mul (Sin thetai) (Sin thetas)) (Sin phii)) (Sin phis)).

Definition thetap (thetai thetas phii phis : expr) : expr :=
  Add (Add (Mul (Mul (Num (- (1))) (Cos thetai)) (Cos thetas))
           (Mul (Mul (Mul (Sin thetai) (Sin thetas)) (Cos phii)) (Cos phis)))
      (Mul (Mul (Mul (Sin thetai) (Sin thetas)) (Sin phii)) (Sin phis)).

(** [e.evalf()] of an expression without free symbols. *)
Definition evalf (e : expr) : R := eval (fun _ => 0%R) e.

End Scatter.

Import Scatter.

(** ** volume.py: volume-scattering phase functions *)

Module Volume.

(** The attributes of a [Volume] instance.  [ncoefs] is [None] while the
    attribute is not set ([Phasefunction.__init__] does not set it). *)
Record Volume : Type := mkVolume {
  omega : option Q;
  tau : option Q;
  a : list Q;
  ncoefs : option Z;
  legcoefs : expr;
  _func : expr
}.

Definition getattr_ncoefs (self : Volume) : py Z :=
  match ncoefs self with
  | Some k => Ok k
  | None => Raise (AttributeError "ncoefs")
  end.

(** [Scatter._get_legcoef(n0)]: substitute the integer for the symbol [n]. *)
Definition _get_legcoef (self : Volume) (n0 : Z) : R :=
  evalf (xreplace "n" (Num (inject_Z n0)) (legcoefs self)).

Definition default_a : list Q := [- (1); 1; 1]%Q.

(** What a caller can pass for the parameter [a]: a list or some other
    sequence (a tuple), whose entries are floats or other numbers (ints). *)
Inductive number : Type :=
| PyFloat (q : Q)
| PyInt (z : Z).

Inductive sequence : Type :=
| PyList (items : list number)
| PyTuple (items : list number).

(** [isinstance(a, list)]. *)
Definition isinstance_list (a : sequence) : bool :=
  match a with PyList _ => true | PyTuple _ => false end.

Definition items (a : sequence) : list number :=
  match a with PyList xs => xs | PyTuple xs => xs end.

(** [type(x) == float]. *)
Definition type_is_float (x : number) : bool :=
  match x with PyFloat _ => true | PyInt _ => false end.

Definition number_value (x : number) : Q :=
  match x with PyFloat q => q | PyInt z => inject_Z z end.

(** The default argument [a=[-1., 1., 1.]]. *)
Definition default_a_argument : sequence :=
  PyList [PyFloat (- (1)); PyFloat 1; PyFloat 1].

(** [geometry[i]] on a Python string. *)
Definition geometry_at (geometry : string) (i : nat) : py ascii :=
  match String.get i geometry with
  | Some c => Ok c
  | None => Raise IndexError
  end.

(** One [if geometry[i] == 'v' ... elif geometry[i] == 'f' ... else raise]. *)
Definition angle_slot (geometry : string) (i : nat) (name : string)
    (value : expr) (msg : string) : py expr :=
  c <- geometry_at geometry i ;;
  if Ascii.eqb c "v" then Ok (Symbol name)
  else
    c' <- geometry_at geometry i ;;
    if Ascii.eqb c' "f" then Ok value
    else Raise (AssertionError msg).

(** The block of [legexpansion] commented "define sympy variables based on
    chosen geometry": the local variables theta_0, theta_ex, phi_0, phi_ex. *)
Record angles : Type := mkAngles {
  theta_0 : expr;
  theta_ex : expr;
  phi_0 : expr;
  phi_ex : expr
}.

Definition legexpansion_angles (t_0 t_ex p_0 p_ex : expr) (geometry : string)
    : py angles :=
  if String.eqb geometry "mono" then
    let theta_0 := Symbol "theta_0" in
    let theta_ex := theta_0 in
    let phi_0 := p_0 in
    let phi_ex := Add p_0 Pi in
    Ok (mkAngles theta_0 theta_ex phi_0 phi_ex)
  else
    theta_0 <- angle_slot geometry 0 "theta_0" t_0 "wrong choice of theta_i geometry" ;;
    theta_ex <- angle_slot geometry 1 "theta_ex" t_ex "wrong choice of theta_ex geometry" ;;
    phi_0 <- angle_slot geometry 2 "phi_0" p_0 "wrong choice of phi_i geometry" ;;
    phi_ex <- angle_slot geometry 3 "phi_ex" p_ex "wrong choice of phi_ex geometry" ;;
    Ok (mkAngles theta_0 theta_ex phi_0 phi_ex).

Section WithScatAngle.
Context {SA : ScatAngle}.

Definition legexpansion (self : Volume) (t_0 t_ex p_0 p_ex : expr)
    (geometry : string) : py expr :=
  nc <- getattr_ncoefs self ;;
  assert (0 <? nc)%Z "" ;;;
  let theta_s := Symbol "theta_s" in
  let phi_s := Symbol "phi_s" in
  NP <- getattr_ncoefs self ;;
  let n := Symbol "n" in
  ang <- legexpansion_angles t_0 t_ex p_0 p_ex geometry ;;
  Ok (Sum (Mul (legcoefs self)
               (legendre n (scat_angle (Sub Pi (theta_0 ang)) theta_s (phi_0 ang) phi_s (a self))))
          "n" 0 (NP - 1)).

(** *** Rayleigh *)

Definition Rayleigh_func (a : list Q) : expr :=
  let x := scat_angle (Symbol "theta_0") (Symbol "theta_ex") (Symbol "phi_0") (Symbol "phi_ex") a in
  Mul (Div (Num 3) (Mul (Num 16) Pi)) (Add (Num 1) (Pow x (Num 2))).

Definition Rayleigh_legcoefs : expr :=
  let n := Symbol "n" in
  expand (Mul (Div (Num 3) (Mul (Num 16) Pi))
              (Add (Mul (Num (4 / 3)) (KroneckerDelta (Num 0) n))
                   (Mul (Num (2 / 3)) (KroneckerDelta (Num 2) n)))).

Definition Rayleigh (omega tau : option Q) : Volume :=
  {| omega := omega; tau := tau; a := default_a;
     ncoefs := Some 3%Z;
     legcoefs := Rayleigh_legcoefs;
     _func := Rayleigh_func default_a |}.

(** *** Henyey-Greenstein *)

Definition HenyeyGreenstein_func (t : Q) (a : list Q) : expr :=
  let x := scat_angle (Symbol "theta_0") (Symbol "theta_ex") (Symbol "phi_0") (Symbol "phi_ex") a in
  Div (Num (1 - t ^ 2))
      (Mul (Mul (Num 4) Pi)
           (Pow (Sub (Num (1 + t ^ 2)) (Mul (Num (2 * t)) x)) (Num (3 # 2)))).

Definition HenyeyGreenstein_legcoefs (t : Q) : expr :=
  let n := Symbol "n" in
  Mul (Mul (Div (Num 1) (Mul (Num 4) Pi)) (Add (Mul (Num 2) n) (Num 1)))
      (Pow (Num t) n).

Definition HenyeyGreenstein (t : option Q) (ncoefs : option Z) (a : sequence)
    (omega tau : option Q) : py Volume :=
  match t with
  | None => Raise (AssertionError "t parameter needs to be provided!")
  | Some t =>
    match ncoefs with
    | None => Raise (AssertionError "Number of coefficients needs to be specified")
    | Some nc =>
      assert (isinstance_list a) "Error: Generalization-parameter needs to be a list" ;;;
      assert (List.length (items a) =? 3)%nat "Error: Generalization-parameter list must contain 3 values" ;;;
      assert (forallb type_is_float (items a)) "Error: Generalization-parameter array must contain only floating-point values!" ;;;
      assert (0 <? nc)%Z "" ;;;
      Ok {| omega := omega; tau := tau; a := map number_value (items a);
            ncoefs := Some nc;
            legcoefs := HenyeyGreenstein_legcoefs t;
            _func := HenyeyGreenstein_func t (map number_value (items a)) |}
    end
  end.

(** *** LinCombV: linear combinations of phase functions *)

(** [np.sum] of a list of floats. *)
Definition np_sum (l : list Q) : Q := fold_left Qplus l 0.

(** [np.testing.assert_almost_equal(desired=, actual=)] with numpy's default
    [decimal=7]: raises unless abs(desired - actual) < 1.5 * 10**(-7). *)
Definition assert_almost_equal (desired actual : Q) (err_msg : string) : py unit :=
  if Qle_bool (15 # 100000000) (Qabs (desired - actual))
  then Raise (AssertionError err_msg)
  else Ok tt.

(** [(np.array(x) == tuple(y)).all()] on two parameter lists (every [a] has
    three entries, so the rows compare entry by entry). *)
Definition a_eqb (x y : list Q) : bool :=
  (List.length x =? List.length y)%nat
  && forallb (fun p => Qeq_bool (fst p) (snd p)) (combine x y).

(** [np.where(mask)[0]]: the positions at which the mask holds. *)
Fixpoint where_from (i : nat) (mask : list bool) : list nat :=
  match mask with
  | [] => []
  | b :: m => if b then i :: where_from (S i) m else where_from (S i) m
  end.

Definition np_where (mask : list bool) : list nat := where_from 0 mask.

(** [np.take(l, idx, axis=0)]. *)
Definition np_take {A : Type} (l : list A) (idx : list nat) : py (list A) :=
  mapM (fun i => match nth_error l i with
                 | Some x => Ok x
                 | None => Raise IndexError
                 end) idx.

(** Python's [max] of a list. *)
Definition pymax (l : list Z) : py Z :=
  match l with
  | [] => Raise (ValueError "max() arg is an empty sequence")
  | x :: xs => Ok (fold_left Z.max xs x)
  end.

(** [np.sum] of a list of sympy expressions. *)
Definition np_sum_expr (l : list expr) : expr :=
  match l with
  | [] => Num 0
  | e :: es => fold_left Add es e
  end.

(** The local class [Phasefunction]: [_func] and [legcoefs] start at [0.]. *)
Definition Phasefunction (omega tau : option Q) : Volume :=
  {| omega := omega; tau := tau; a := default_a;
     ncoefs := None; legcoefs := Num 0; _func := Num 0 |}.

Definition set_ncoefs (V : Volume) (nc : Z) : Volume :=
  {| omega := omega V; tau := tau V; a := a V;
     ncoefs := Some nc; legcoefs := legcoefs V; _func := _func V |}.

Definition set_func (V : Volume) (f : expr) : Volume :=
  {| omega := omega V; tau := tau V; a := a V;
     ncoefs := ncoefs V; legcoefs := legcoefs V; _func := f |}.

Definition Vchoice : Type := (Q * Volume)%type.

(** [equals]: for every choice, the positions of the choices with an equal
    [a] parameter. *)
Definition equals (Vchoices : list Vchoice) : list (list nat) :=
  map (fun V => np_where (map (fun VV => a_eqb (a (snd VV)) (a (snd V))) Vchoices))
      Vchoices.

Definition index_eq_dec : forall x y : list nat, {x = y} + {x <> y} :=
  list_eq_dec Nat.eq_dec.

(** The body of the loop [for V in Vequal]. *)
Definition Vdummy_step (Vdummy : Volume) (V : Vchoice) : Volume :=
  {| omega := omega Vdummy; tau := tau Vdummy;
     a := a (snd V);
     ncoefs := ncoefs Vdummy;
     legcoefs := Add (legcoefs Vdummy) (Mul (legcoefs (snd V)) (Num (fst V)));
     _func := Add (_func Vdummy) (Mul (_func (snd V)) (Num (fst V))) |}.

(** One turn of [for i in range(0, len(equal_a))]: the intermediate phase
    function of the choices at the positions [idx]. *)
Definition Vdummy_of (Vchoices : list Vchoice) (idx : list nat) : py Volume :=
  let Vdummy := Phasefunction None None in
  Vequal <- np_take Vchoices idx ;;
  ncs <- mapM (fun V => getattr_ncoefs (snd V)) Vequal ;;
  m <- pymax ncs ;;
  let Vdummy := set_ncoefs Vdummy m in
  Ok (fold_left Vdummy_step Vequal Vdummy).

(** What [_Vcombiner] returns: the attributes of [Vcomb], and the list
    [dummylegexpansion] captured by the lambda bound to [Vcomb.legexpansion]
    (each entry the bound method of one intermediate phase function). *)
Record Vcomb : Type := mkVcomb {
  Vcomb_attrs : Volume;
  dummylegexpansion : list Volume
}.

Definition Vcomb_legexpansion (vc : Vcomb) (t_0 t_ex p_0 p_ex : expr)
    (geometry : string) : py expr :=
  es <- mapM (fun lexp => legexpansion lexp t_0 t_ex p_0 p_ex geometry)
             (dummylegexpansion vc) ;;
  Ok (np_sum_expr es).

Section WithSetOrder.
(** [list({tuple(row) for row in equals})]: the distinct rows, in the order in
    which the set happens to enumerate them. *)
Variable list_set : list (list nat) -> list (list nat).

Definition equal_a (Vchoices : list Vchoice) : list (list nat) :=
  list_set (equals Vchoices).

Definition _Vcombiner (self_tau self_omega : option Q) (Vchoices : list Vchoice)
    : py Vcomb :=
  assert_almost_equal 1 (np_sum (map fst Vchoices))
    "The sum of the phase-function weighting-factors must equate to 1 !" ;;;
  let equal_a := equal_a Vchoices in
  let Vcomb := Phasefunction self_omega self_tau in
  ncs <- mapM (fun V => getattr_ncoefs (snd V)) Vchoices ;;
  m <- pymax ncs ;;
  let Vcomb := set_ncoefs Vcomb m in
  dummylegexpansion <-
    foldM (fun dummylegexpansion idx =>
             Vdummy <- Vdummy_of Vchoices idx ;;
             Ok (dummylegexpansion ++ [Vdummy]))
          equal_a [] ;;
  let Vcomb :=
    fold_left (fun Vcomb V =>
                 set_func Vcomb (Add (_func Vcomb) (Mul (_func (snd V)) (Num (fst V)))))
              Vchoices Vcomb in
  Ok (mkVcomb Vcomb dummylegexpansion).

(** [LinCombV.__init__]: [Volume.__init__] sets [omega], [tau] and [a];
    [_set_function] and [_set_legexpansion] call [_Vcombiner] three times and
    keep its [_func], [ncoefs] and [legexpansion]. *)
Record LinCombV_obj : Type := mkLinCombV {
  LinCombV_omega : option Q;
  LinCombV_tau : option Q;
  LinCombV_a : list Q;
  LinCombV_Vchoices : list Vchoice;
  LinCombV_func : expr;
  LinCombV_ncoefs : Z;
  LinCombV_legexpansion : expr -> expr -> expr -> expr -> string -> py expr
}.

Definition LinCombV (Vchoices : list Vchoice) (omega tau : option Q)
    : py LinCombV_obj :=
  c1 <- _Vcombiner tau omega Vchoices ;;
  let func := _func (Vcomb_attrs c1) in
  c2 <- _Vcombiner tau omega Vchoices ;;
  nc <- getattr_ncoefs (Vcomb_attrs c2) ;;
  c3 <- _Vcombiner tau omega Vchoices ;;
  Ok (mkLinCombV omega tau default_a Vchoices func nc (Vcomb_legexpansion c3)).

End WithSetOrder.

End WithScatAngle.

(** *** Numeric evaluation of the phase function *)

(** The arguments of the function [sp.lambdify((theta_0, theta_ex, phi_0,
    phi_ex), self._func)] builds. *)
Definition lambdify_args (t_0 t_ex p_0 p_ex : R) : env :=
  fun s =>
    if String.eqb s "theta_0" then t_0
    else if String.eqb s "theta_ex" then t_ex
    else if String.eqb s "phi_0" then p_0
    else if String.eqb s "phi_ex" then p_ex
    else 0%R.

(** [Volume.p] at one set of angles: the value of [_func]. *)
Definition p (self : Volume) (t_0 t_ex p_0 p_ex : R) : R :=
  eval (lambdify_args t_0 t_ex p_0 p_ex) (_func self).

(** [p] as [LinCombV] inherits it, on the [_func] it took from [_Vcombiner]. *)
Definition LinCombV_p (self : LinCombV_obj) (t_0 t_ex p_0 p_ex : R) : R :=
  eval (lambdify_args t_0 t_ex p_0 p_ex) (LinCombV_func self).

(** *** Henyey-Greenstein-Rayleigh *)

(** [sp.Piecewise((lower, n < bound), (upper, True))]. *)
Record piecewise : Type := mkPiecewise {
  lower : expr;
  bound : Q;
  upper : expr
}.

(** [pw.xreplace({n: int(n0)})]: the condition becomes a truth value and the
    node reduces to the selected branch. *)
Definition piecewise_xreplace (pw : piecewise) (n0 : Z) : expr :=
  if Qlt_le_dec (inject_Z n0) (bound pw)
  then xreplace "n" (Num (inject_Z n0)) (lower pw)
  else xreplace "n" (Num (inject_Z n0)) (upper pw).

Record HGRayleigh_obj : Type := mkHGRayleigh {
  HGRayleigh_omega : option Q;
  HGRayleigh_tau : option Q;
  HGRayleigh_t : Q;
  HGRayleigh_a : list Q;
  HGRayleigh_ncoefs : Z;
  HGRayleigh_func : expr;
  HGRayleigh_legcoefs : piecewise
}.

Definition HGRayleigh_set_legcoefficients (t : Q) : piecewise :=
  let n := Symbol "n" in
  let prefactor :=
    Div (Mul (Div (Num 3) (Mul (Num 8) Pi)) (Num 1)) (Num (2 + t ^ 2)) in
  let term_up :=
    Mul (Div (Mul (Add n (Num 2)) (Add n (Num 1))) (Add (Mul (Num 2) n) (Num 3)))
        (Pow (Num t) (Add n (Num 2))) in
  let term_mid :=
    Mul (Div (Pow (Add n (Num 1)) (Num 2)) (Add (Mul (Num 2) n) (Num 3)))
        (Pow (Num t) n) in
  let term_sq :=
    Mul (Div (Sub (Mul (Num 5) (Pow n (Num 2))) (Num 1)) (Sub (Mul (Num 2) n) (Num 1)))
        (Pow (Num t) n) in
  let term_down :=
    Mul (Div (Mul n (Sub n (Num 1))) (Sub (Mul (Num 2) n) (Num 1)))
        (Pow (Num t) (Sub n (Num 2))) in
  {| lower := Mul prefactor (Add (Add term_up term_mid) term_sq);
     bound := 2;
     upper := Mul prefactor (Add (Add (Add term_down term_up) term_mid) term_sq) |}.

Section HGRayleighWithScatAngle.
Context {SA : ScatAngle}.

Definition HGRayleigh_set_function (t : Q) (a : list Q) : expr :=
  let x := scat_angle (Symbol "theta_0") (Symbol "theta_ex") (Symbol "phi_0") (Symbol "phi_ex") a in
  Div (Mul (Mul (Div (Mul (Div (Num 3) (Mul (Num 8) Pi)) (Num 1)) (Num (2 + t ^ 2)))
                (Add (Num 1) (Pow x (Num 2))))
           (Num (1 - t ^ 2)))
      (Pow (Sub (Num (1 + t ^ 2)) (Mul (Num (2 * t)) x)) (Num (3 # 2))).

Definition HGRayleigh (t : option Q) (ncoefs : option Z) (a : sequence)
    (omega tau : option Q) : py HGRayleigh_obj :=
  match t with
  | None => Raise (AssertionError "t parameter needs to be provided!")
  | Some t =>
    match ncoefs with
    | None => Raise (AssertionError "Number of coefficients needs to be specified")
    | Some nc =>
      assert (isinstance_list a) "Error: Generalization-parameter needs to be a list" ;;;
      assert (List.length (items a) =? 3)%nat "Error: Generalization-parameter list must contain 3 values" ;;;
      assert (forallb type_is_float (items a)) "Error: Generalization-parameter array must contain only floating-point values!" ;;;
      assert (0 <? nc)%Z "" ;;;
      Ok (mkHGRayleigh omega tau t (map number_value (items a)) nc
            (HGRayleigh_set_function t (map number_value (items a)))
            (HGRayleigh_set_legcoefficients t))
    end
  end.

End HGRayleighWithScatAngle.

(** [Scatter._get_legcoef(n0)] on a Henyey-Greenstein-Rayleigh function. *)
Definition HGRayleigh_get_legcoef (self : HGRayleigh_obj) (n0 : Z) : R :=
  evalf (piecewise_xreplace (HGRayleigh_legcoefs self) n0).

End Volume.

Import Volume.

(** ** rt1.py: the first-order solution *)

Module RT1.

Local Open Scope R_scope.

(** The surface collaborator (module [surface]). *)
Record Surface : Type := mkSurface { brdf : R -> R }.

(** The coefficient collaborator (module [coefficients]): [fn(nmax)] gives
    the list of fn-coefficients. *)
Record Coefficients : Type := mkCoefficients { fn : Z -> list R }.

(** Values a name or an attribute can be bound to. *)
Inductive value : Type :=
| VNone
| VFloat (r : R)
| VInt (z : Z)
| VFun (f : R -> R)
| VVolume (v : Volume)
| VSurface (s : Surface)
| VCoefficients (c : Coefficients)
| VOther.                       (* modules, classes, arrays, instances *)

Definition namespace : Type := list (string * value).

Fixpoint lookup (name : string) (ns : namespace) : option value :=
  match ns with
  | [] => None
  | (k, v) :: ns' => if String.eqb name k then Some v else lookup name ns'
  end.

(** The instance attributes set by [RT1.__init__]. *)
Record RT1 : Type := mkRT1 {
  I0 : R;
  mu_0 : R;
  mu_ex : R;
  RV : Volume;
  SRF : Surface;
  _nmax : Z;
  Fn : option Coefficients
}.

Definition __dict__ (self : RT1) : namespace :=
  [ ("I0", VFloat (I0 self)); ("mu_0", VFloat (mu_0 self));
    ("mu_ex", VFloat (mu_ex self)); ("RV", VVolume (RV self));
    ("SRF", VSurface (SRF self)); ("_nmax", VInt (_nmax self));
    ("Fn", match Fn self with Some c => VCoefficients c | None => VNone end) ]%string.

(** The methods of the class, found when the instance has no such attribute. *)
Definition class_attributes : list string :=
  [ "__init__"; "cos_theta"; "cos_theta_prime"; "calc"; "surface"; "volume";
    "interaction"; "_calc_Fint" ]%string.

(** [self.<name>]. *)
Definition getattr (self : RT1) (name : string) : py value :=
  match lookup name (__dict__ self) with
  | Some v => Ok v
  | None =>
      if existsb (String.eqb name) class_attributes then Ok VOther
      else Raise (AttributeError name)
  end.

(** A global name of the module. *)
Definition load_global (globals : namespace) (name : string) : py value :=
  match lookup name globals with
  | Some v => Ok v
  | None => Raise (NameError name)
  end.

(** The names the module binds by the time its script calls [R.calc()]:
    the imports, the class and the variables of the example. *)
Definition rt1_globals : namespace :=
  [ ("np", VOther); ("Isotropic", VOther); ("RT1", VOther);
    ("Rayleigh", VOther); ("RayleighIsotropic", VOther);
    ("I0", VFloat 1); ("inc", VOther); ("V", VOther); ("SRF", VOther);
    ("Itot", VOther); ("Isurf", VOther); ("Iint", VOther); ("Ivol", VOther);
    ("i", VInt 0); ("mu_0", VFloat 0); ("mu_ex", VFloat 0); ("R", VOther) ]%string.

Definition as_float (v : value) : py R :=
  match v with
  | VFloat r => Ok r
  | VInt z => Ok (IZR z)
  | _ => Raise (ValueError "unsupported operand type")
  end.

Definition call (v : value) (x : R) : py R :=
  match v with
  | VFun f => Ok (f x)
  | _ => Raise (ValueError "object is not callable")
  end.

(** [self.RV.tau] as a number. *)
Definition RV_tau (self : RT1) : py R :=
  match tau (RV self) with
  | Some q => Ok (Q2R q)
  | None => Raise (ValueError "unsupported operand type")
  end.

Definition cos_theta (mu_i mu_s phi_i phi_s : R) : R :=
  mu_i * mu_s + sin (acos mu_i) * sin (acos mu_s) * cos (phi_i - phi_s).

Definition cos_theta_prime (mu_i mu_s phi_i phi_s : R) : R :=
  - mu_i * mu_s + sin (acos mu_i) * sin (acos mu_s) * cos (phi_i - phi_s).

(** [surface]: the value is [I0 * np.exp(-(self.tau / self.mu_0) -
    (self.tau/self.mu_ex)) * self.mu_0 * self.SRF.brdf(ctheta)], its operands
    evaluated from left to right. *)
Definition surface (globals : namespace) (self : RT1) : py R :=
  let phi_i := 0 in
  let phi_s := 0 in
  let ctheta := cos_theta (- mu_0 self) (mu_ex self) phi_i phi_s in
  i0 <- (v <- load_global globals "I0" ;; as_float v) ;;
  tau1 <- (v <- getattr self "tau" ;; as_float v) ;;
  tau2 <- (v <- getattr self "tau" ;; as_float v) ;;
  Ok (i0 * exp (- (tau1 / mu_0 self) - (tau2 / mu_ex self)) * mu_0 self
      * brdf (SRF self) ctheta).

(** [xrange(lo, hi)]. *)
Definition xrange (lo hi : Z) : list Z :=
  map (fun i => lo + Z.of_nat i)%Z (seq 0 (Z.to_nat (hi - lo))).

(** [fn[n]]. *)
Definition getitem (l : list R) (n : Z) : py R :=
  match nth_error l (Z.to_nat n) with
  | Some x => Ok x
  | None => Raise IndexError
  end.

(** [_calc_Fint]: the two nested loops; the body has no [return]. *)
Definition _calc_Fint (globals : namespace) (self : RT1) (mu1 mu2 : R) : py value :=
  let S := 0 in
  fn <- match Fn self with
        | Some c => Ok (fn c (_nmax self))
        | None => Raise (AttributeError "fn")
        end ;;
  S <- foldM (fun S n =>
        let S2 := 0 in
        S2 <- foldM (fun S2 k =>
                E_k1 <- (v <- load_global globals "todo" ;; as_float v) ;;
                tau <- RV_tau self ;;
                Ok (S2 + powerRZ mu1 (- k) * (E_k1 - exp (- tau / mu1) / IZR k)))
              (xrange 1 ((n + 1) + 1)) S2 ;;
        fn_n <- getitem fn n ;;
        tau <- RV_tau self ;;
        expi <- load_global globals "expi" ;;
        ei1 <- call expi (- tau) ;;
        ei2 <- call expi (tau / mu1 - tau) ;;
        Ok (S + fn_n * powerRZ mu1 (n + 1)
                * (exp (- tau / mu1) * ln (mu1 / (1 - mu1)) - ei1
                   + exp (- tau / mu1) * ei2 + S2)))
      (xrange 0 (_nmax self)) S ;;
  Ok VNone.

(** [RT1.__init__]: [RV], [SRF] and [Fn] default to [None], [nmax] to 10. *)
Definition __init__ (I0 mu_0 mu_ex : R) (RV : option Volume)
    (SRF : option Surface) (nmax : option Z) (Fn : option Coefficients) : py RT1 :=
  match RV with
  | None => Raise (AssertionError "ERROR: needs to provide volume information")
  | Some rv =>
    match SRF with
    | None => Raise (AssertionError "ERROR: needs to provide surface information")
    | Some srf =>
        Ok (mkRT1 I0 mu_0 mu_ex rv srf
              (match nmax with Some k => k | None => 10%Z end) Fn)
    end
  end.

(** [self.RV.omega] as a number. *)
Definition RV_omega (self : RT1) : py R :=
  match omega (RV self) with
  | Some q => Ok (Q2R q)
  | None => Raise (ValueError "unsupported operand type")
  end.

(** [volume]: [(self.I0*self.omega*self.mu_0/(self.mu_0+self.mu_ex)) *
    (1.-np.exp(-(self.tau/self.mu_0)-(self.tau/self.mu_ex))) *
    self.phase(ctheta)], its operands evaluated from left to right; [ctheta]
    is not a local of the method. *)
Definition volume (globals : namespace) (self : RT1) : py R :=
  om <- (v <- getattr self "omega" ;; as_float v) ;;
  tau1 <- (v <- getattr self "tau" ;; as_float v) ;;
  tau2 <- (v <- getattr self "tau" ;; as_float v) ;;
  phase <- getattr self "phase" ;;
  ctheta <- (v <- load_global globals "ctheta" ;; as_float v) ;;
  ph <- call phase ctheta ;;
  Ok (I0 self * om * mu_0 self / (mu_0 self + mu_ex self)
      * (1 - exp (- (tau1 / mu_0 self) - (tau2 / mu_ex self))) * ph).

(** [interaction]: two calls of [_calc_Fint] with the angles exchanged. *)
Definition interaction (globals : namespace) (self : RT1) : py R :=
  Fint1 <- _calc_Fint globals self (mu_0 self) (mu_ex self) ;;
  Fint2 <- _calc_Fint globals self (mu_ex self) (mu_0 self) ;;
  om <- RV_omega self ;;
  tau <- RV_tau self ;;
  f1 <- as_float Fint1 ;;
  tau' <- RV_tau self ;;
  f2 <- as_float Fint2 ;;
  Ok (I0 self * mu_0 self * om
      * (exp (- tau / mu_ex self) * f1 + exp (- tau' / mu_0 self) * f2)).

(** [calc]: the three terms in the order surface, volume, interaction. *)
Definition calc (globals : namespace) (self : RT1) : py (R * R * R * R) :=
  Isurf <- surface globals self ;;
  Ivol <- volume globals self ;;
  Iint <- interaction globals self ;;
  Ok (Isurf + Ivol + Iint, Isurf, Ivol, Iint).

End RT1.

Import RT1.

(** ** Vocabulary of the statements *)

Module Props.

Definition fixed_or_variable (c : ascii) : bool :=
  Ascii.eqb c "v" || Ascii.eqb c "f".

(** The geometry strings [legexpansion] accepts: ['mono'], or a string whose
    first four characters are each ['f'] or ['v']. *)
Definition valid_geometry (geometry : string) : bool :=
  String.eqb geometry "mono"
  || match geometry with
     | String c0 (String c1 (String c2 (String c3 _))) =>
         fixed_or_variable c0 && fixed_or_variable c1
         && fixed_or_variable c2 && fixed_or_variable c3
     | _ => false
     end.

(** The weighted sum of a quantity over (weight, component) pairs. *)
Fixpoint weighted_sum (f : Volume -> R) (members : list Vchoice) : R :=
  match members with
  | [] => 0%R
  | V :: rest => (f (snd V) * Q2R (fst V) + weighted_sum f rest)%R
  end.

(** The messages of the four assertions on the geometry string, by position. *)
Definition geometry_messages : list string :=
  [ "wrong choice of theta_i geometry"; "wrong choice of theta_ex geometry";
    "wrong choice of phi_i geometry"; "wrong choice of phi_ex geometry" ]%string.

(** Every character of the string is ['f'] or ['v']. *)
Fixpoint all_fixed_or_variable (g : string) : bool :=
  match g with
  | EmptyString => true
  | String c rest => fixed_or_variable c && all_fixed_or_variable rest
  end.

(** The choice [V] with other [omega] and [tau] attributes on its component. *)
Definition with_tau_omega (om' ta' : Volume -> option Q) (V : Vchoice) : Vchoice :=
  (fst V,
   {| omega := om' (snd V); tau := ta' (snd V); a := a (snd V);
      ncoefs := ncoefs (snd V); legcoefs := legcoefs (snd V);
      _func := _func (snd V) |}).

Definition has_ncoefs (V : Vchoice) : bool :=
  match ncoefs (snd V) with Some _ => true | None => false end.

(** A component as the constructors of the phase functions leave it:
    [ncoefs] is set and positive. *)
Definition valid_component (V : Vchoice) : bool :=
  match ncoefs (snd V) with Some k => (0 <? k)%Z | None => false end.

(** The choices whose [a] parameter equals that of [V]. *)
Definition same_a (V VV : Vchoice) : bool := a_eqb (a (snd VV)) (a (snd V)).

(** Two parameter lists are equal: same length and, entry by entry, the same
    number ([Forall2 Qeq]), decided entry by entry. *)
Fixpoint equal_parameters (x y : list Q) : bool :=
  match x, y with
  | [], [] => true
  | u :: us, v :: vs => (if Qeq_dec u v then true else false) && equal_parameters us vs
  | _, _ => false
  end.

(** The members of the class of [Vi]: the choices, in their order, whose
    parameters equal those of [Vi]. *)
Definition class_members (Vchoices : list Vchoice) (Vi : Vchoice) : list Vchoice :=
  filter (fun VV => equal_parameters (a (snd VV)) (a (snd Vi))) Vchoices.

(** [Vd] is the intermediate phase function of the class [members]: its
    [ncoefs] is the largest of the members', its [legcoefs] and [_func] are
    worth the weighted sums of the members', its [a] is a member's. *)
Definition class_phase_function (members : list Vchoice) (Vd : Volume) : Prop :=
  (exists m, ncoefs Vd = Some m
     /\ (exists W, In W members /\ ncoefs (snd W) = Some m)
     /\ (forall W k, In W members -> ncoefs (snd W) = Some k -> (k <= m)%Z))
  /\ (forall rho, eval rho (legcoefs Vd)
                  = weighted_sum (fun V => eval rho (legcoefs V)) members)
  /\ (forall rho, eval rho (_func Vd)
                  = weighted_sum (fun V => eval rho (_func V)) members)
  /\ (exists W, In W members /\ a Vd = a (snd W)).

End Props.

Import Props.

(** ** Sample inputs *)

Module Samples.

(** [list(set)] enumerating the distinct rows in one fixed order. *)
Definition list_set_nodup (rows : list (list nat)) : list (list nat) :=
  nodup index_eq_dec rows.

Definition rayleigh : Volume :=
  @Rayleigh scat_angle_spec (Some (3 # 10)%Q) (Some (7 # 10)%Q).

(** [HenyeyGreenstein(t=0.5, ncoefs=5, a=[1.,1.,1.])]. *)
Definition henyey_greenstein : Volume :=
  {| omega := None; tau := None; a := [1; 1; 1]%Q;
     ncoefs := Some 5%Z;
     legcoefs := HenyeyGreenstein_legcoefs (1 # 2);
     _func := @HenyeyGreenstein_func scat_angle_spec (1 # 2) [1; 1; 1]%Q |}.

Definition weights_04_06 : list Vchoice :=
  [ ((4 # 10)%Q, rayleigh); ((6 # 10)%Q, henyey_greenstein) ].


(** [HGRayleigh(t=0.5, ncoefs=5, a=[1.,1.,1.])] and the same with [t=0.]. *)
Definition hg_rayleigh : HGRayleigh_obj :=
  mkHGRayleigh None None (1 # 2) [1; 1; 1]%Q 5
    (@HGRayleigh_set_function scat_angle_spec (1 # 2) [1; 1; 1]%Q)
    (HGRayleigh_set_legcoefficients (1 # 2)).

Definition hg_rayleigh_0 : HGRayleigh_obj :=
  mkHGRayleigh None None 0 [1; 1; 1]%Q 5
    (@HGRayleigh_set_function scat_angle_spec 0 [1; 1; 1]%Q)
    (HGRayleigh_set_legcoefficients 0).

End Samples.

Import Samples.

(** ** Auxiliary facts *)

Section Numbers.
Local Open Scope R_scope.

Lemma Int_part_IZR (z : Z) : Int_part (IZR z) = z.
Proof.
  symmetry. apply Int_part_spec. lra.
Qed.

Lemma rpow_IZR (x : R) (z : Z) : rpow x (IZR z) = powerRZ x z.
Proof.
  unfold rpow. rewrite Int_part_IZR.
  destruct (Req_dec_T (IZR z) (IZR z)); [reflexivity | contradiction].
Qed.

Lemma rpow_nat (x : R) (n : nat) : rpow x (IZR (Z.of_nat n)) = x ^ n.
Proof.
  rewrite rpow_IZR. symmetry. apply pow_powerRZ.
Qed.

Lemma Q2R_inject_Z (z : Z) : Q2R (inject_Z z) = IZR z.
Proof.
  unfold Q2R, inject_Z. simpl. lra.
Qed.

Lemma delta_IZR (x y : Z) : delta (IZR x) (IZR y) = if (x =? y)%Z then 1 else 0.
Proof.
  unfold delta. destruct (Req_dec_T (IZR x) (IZR y)) as [E | E].
  - apply eq_IZR in E. subst. now rewrite Z.eqb_refl.
  - destruct (Z.eqb_spec x y); [subst; contradiction | reflexivity].
Qed.

End Numbers.

Section Expand.

Lemma eval_distr_r (rho : env) (x y : expr) :
  eval rho (distr_r x y) = eval rho (Mul x y).
Proof.
  induction y; simpl; try reflexivity.
  simpl in *. rewrite IHy1, IHy2. ring.
Qed.

Lemma eval_distr_l (rho : env) (x y : expr) :
  eval rho (distr_l x y) = eval rho (Mul x y).
Proof.
  induction x; simpl; try apply eval_distr_r.
  simpl in *. rewrite IHx1, IHx2. ring.
Qed.

Lemma eval_expand (rho : env) (e : expr) : eval rho (expand e) = eval rho e.
Proof.
  induction e; simpl; try reflexivity.
  - now rewrite IHe1, IHe2.
  - rewrite eval_distr_l. simpl. now rewrite IHe1, IHe2.
Qed.

End Expand.

(** ** Scattering geometry ([RT1.cos_theta], [RT1.cos_theta_prime]) *)

Section Geometry.
Local Open Scope R_scope.

Lemma sin_arccos (x : R) : -1 <= x <= 1 -> sin (acos x) = sqrt (1 - x * x).
Proof.
  intros Hx. rewrite sin_acos by exact Hx. unfold Rsqr. reflexivity.
Qed.

(** C9: for zenith cosines in [-1,1], [cos_theta] is
    mu_i mu_s + sqrt(1-mu_i^2) sqrt(1-mu_s^2) cos(phi_i - phi_s),
    [cos_theta_prime] is the same with the first term negated, and for equal
    azimuths the cosine factor disappears. *)
Theorem cos_theta_closed_form (mu_i mu_s phi_i phi_s : R) :
  -1 <= mu_i <= 1 -> -1 <= mu_s <= 1 ->
  cos_theta mu_i mu_s phi_i phi_s
    = mu_i * mu_s + sqrt (1 - mu_i * mu_i) * sqrt (1 - mu_s * mu_s) * cos (phi_i - phi_s)
  /\ cos_theta_prime mu_i mu_s phi_i phi_s
    = - (mu_i * mu_s) + sqrt (1 - mu_i * mu_i) * sqrt (1 - mu_s * mu_s) * cos (phi_i - phi_s)
  /\ cos_theta mu_i mu_s phi_i phi_i
    = mu_i * mu_s + sqrt (1 - mu_i * mu_i) * sqrt (1 - mu_s * mu_s).
Proof.
  intros Hi Hs. unfold cos_theta, cos_theta_prime.
  rewrite !sin_arccos by assumption.
  repeat split.
  - ring.
  - replace (phi_i - phi_i) with 0 by ring. rewrite cos_0. ring.
Qed.

Lemma cos_theta_closed_form_witness :
  cos_theta (1 / 2) (-1) 0 PI
    = 1 / 2 * -1 + sqrt (1 - 1 / 2 * (1 / 2)) * sqrt (1 - -1 * -1) * cos (0 - PI)
  /\ cos_theta_prime (1 / 2) (-1) 0 PI
    = - (1 / 2 * -1) + sqrt (1 - 1 / 2 * (1 / 2)) * sqrt (1 - -1 * -1) * cos (0 - PI)
  /\ cos_theta (1 / 2) (-1) 0 0
    = 1 / 2 * -1 + sqrt (1 - 1 / 2 * (1 / 2)) * sqrt (1 - -1 * -1).
Proof.
  apply (cos_theta_closed_form (1 / 2) (-1) 0 PI); lra.
Defined.

End Geometry.

(** ** Legendre coefficients of the phase functions *)

Section Coefficients.
Context {SA : ScatAngle}.
Local Open Scope R_scope.

Lemma Rayleigh_get_legcoef (om ta : option Q) (n : Z) :
  _get_legcoef (Rayleigh om ta) n
  = 3 / (16 * PI) * (4 / 3 * (if (0 =? n)%Z then 1 else 0)
                     + 2 / 3 * (if (2 =? n)%Z then 1 else 0)).
Proof.
  unfold _get_legcoef, evalf, Rayleigh, legcoefs at 1.
  unfold Rayleigh_legcoefs.
  cbv [expand distr_l distr_r xreplace String.eqb Ascii.eqb Bool.eqb].
  cbv [eval]. rewrite Q2R_inject_Z.
  replace (Q2R 0) with (IZR 0) by (unfold Q2R; simpl; lra).
  replace (Q2R 2) with (IZR 2) by (unfold Q2R; simpl; lra).
  rewrite !delta_IZR.
  replace (Q2R 3) with 3 by (unfold Q2R; simpl; lra).
  replace (Q2R 16) with 16 by (unfold Q2R; simpl; lra).
  replace (Q2R (4 / 3)) with (4 / 3) by (unfold Q2R; simpl; lra).
  replace (Q2R (2 / 3)) with (2 / 3) by (unfold Q2R; simpl; lra).
  assert (PI <> 0) by apply PI_neq0.
  field. assumption.
Qed.

(** C7: the Rayleigh phase function has [ncoefs = 3]; its coefficient is
    3/(16 pi) * 4/3 at n = 0, 3/(16 pi) * 2/3 at n = 2, and 0 at every other
    integer. *)
Theorem Rayleigh_legcoefs_values (om ta : option Q) (n : Z) :
  ncoefs (Rayleigh om ta) = Some 3%Z
  /\ _get_legcoef (Rayleigh om ta) 0 = 3 / (16 * PI) * 4 / 3
  /\ _get_legcoef (Rayleigh om ta) 1 = 0
  /\ _get_legcoef (Rayleigh om ta) 2 = 3 / (16 * PI) * 2 / 3
  /\ _get_legcoef (Rayleigh om ta) n
     = (if (n =? 0)%Z then 3 / (16 * PI) * 4 / 3
        else if (n =? 2)%Z then 3 / (16 * PI) * 2 / 3
        else 0).
Proof.
  assert (HPI : PI <> 0) by apply PI_neq0.
  split; [reflexivity |].
  rewrite !Rayleigh_get_legcoef.
  repeat split; try (simpl; field; assumption).
  rewrite (Z.eqb_sym n 0), (Z.eqb_sym n 2).
  destruct (Z.eqb_spec 0 n) as [E0 | E0]; destruct (Z.eqb_spec 2 n) as [E2 | E2];
    try lia; field; assumption.
Qed.

Lemma HenyeyGreenstein_ok (t : Q) (nc : Z) (a : sequence) (om ta : option Q) (V : Volume) :
  HenyeyGreenstein (Some t) (Some nc) a om ta = Ok V ->
  legcoefs V = HenyeyGreenstein_legcoefs t /\ ncoefs V = Some nc /\ (0 < nc)%Z
  /\ Volume.a V = map number_value (items a).
Proof.
  unfold HenyeyGreenstein, assert.
  destruct (isinstance_list a); simpl; [| discriminate].
  destruct (List.length (items a) =? 3)%nat; simpl; [| discriminate].
  destruct (forallb type_is_float (items a)); simpl; [| discriminate].
  destruct (Z.ltb_spec 0 nc); simpl; [| discriminate].
  intros E. injection E as <-. simpl. auto.
Qed.

Lemma HenyeyGreenstein_get_legcoef (t : Q) (V : Volume) (n : nat) :
  legcoefs V = HenyeyGreenstein_legcoefs t ->
  _get_legcoef V (Z.of_nat n) = (2 * INR n + 1) / (4 * PI) * Q2R t ^ n.
Proof.
  intros E. unfold _get_legcoef, evalf. rewrite E.
  unfold HenyeyGreenstein_legcoefs.
  cbv [xreplace String.eqb Ascii.eqb Bool.eqb eval].
  rewrite Q2R_inject_Z, rpow_nat, INR_IZR_INZ.
  replace (Q2R 1) with 1 by (unfold Q2R; simpl; lra).
  replace (Q2R 2) with 2 by (unfold Q2R; simpl; lra).
  replace (Q2R 4) with 4 by (unfold Q2R; simpl; lra).
  assert (PI <> 0) by apply PI_neq0.
  field. assumption.
Qed.

(** C8: the Henyey-Greenstein coefficient is (2n+1)/(4 pi) * t^n at every
    non-negative integer n; with t = 0 it is 1/(4 pi) at n = 0 and 0 at every
    n > 0. *)
Theorem HenyeyGreenstein_legcoefs_values
    (t : Q) (nc : Z) (a : sequence) (om ta : option Q) (V V0 : Volume) (n : nat) :
  HenyeyGreenstein (Some t) (Some nc) a om ta = Ok V ->
  HenyeyGreenstein (Some 0%Q) (Some nc) a om ta = Ok V0 ->
  _get_legcoef V (Z.of_nat n) = (2 * INR n + 1) / (4 * PI) * Q2R t ^ n
  /\ _get_legcoef V0 0 = 1 / (4 * PI)
  /\ _get_legcoef V0 (Z.of_nat (S n)) = 0.
Proof.
  intros HV HV0.
  apply HenyeyGreenstein_ok in HV as (EV & _).
  apply HenyeyGreenstein_ok in HV0 as (EV0 & _).
  assert (HPI : PI <> 0) by apply PI_neq0.
  split; [| split].
  - now apply HenyeyGreenstein_get_legcoef.
  - change 0%Z with (Z.of_nat 0).
    rewrite (HenyeyGreenstein_get_legcoef 0 V0 0 EV0).
    simpl. field. assumption.
  - rewrite (HenyeyGreenstein_get_legcoef 0 V0 (S n) EV0).
    replace (Q2R 0) with 0 by (unfold Q2R; simpl; lra).
    rewrite pow_ne_zero by discriminate. ring.
Qed.

End Coefficients.

Lemma HenyeyGreenstein_legcoefs_values_witness :
  (@_get_legcoef
     {| omega := Some (3 # 10)%Q; tau := Some (7 # 10)%Q; a := default_a;
        ncoefs := Some 5%Z; legcoefs := HenyeyGreenstein_legcoefs (1 # 2);
        _func := @HenyeyGreenstein_func scat_angle_spec (1 # 2) default_a |}
     (Z.of_nat 2)
   = (2 * INR 2 + 1) / (4 * PI) * Q2R (1 # 2) ^ 2)%R
  /\ (@_get_legcoef
        {| omega := Some (3 # 10)%Q; tau := Some (7 # 10)%Q; a := default_a;
           ncoefs := Some 5%Z; legcoefs := HenyeyGreenstein_legcoefs 0;
           _func := @HenyeyGreenstein_func scat_angle_spec 0 default_a |} 0
      = 1 / (4 * PI))%R
  /\ (@_get_legcoef
        {| omega := Some (3 # 10)%Q; tau := Some (7 # 10)%Q; a := default_a;
           ncoefs := Some 5%Z; legcoefs := HenyeyGreenstein_legcoefs 0;
           _func := @HenyeyGreenstein_func scat_angle_spec 0 default_a |}
        (Z.of_nat 3)
      = 0)%R.
Proof.
  apply (@HenyeyGreenstein_legcoefs_values scat_angle_spec
           (1 # 2) 5 default_a_argument (Some (3 # 10)%Q) (Some (7 # 10)%Q));
    reflexivity.
Defined.

(** ** The Legendre expansion ([Volume.legexpansion]) *)

Section SumNode.
Local Open Scope R_scope.

Lemma sum_from_sum_f_R0 (f : Z -> R) (lo : Z) (n : nat) :
  sum_from f lo (S n) = sum_f_R0 (fun k => f (lo + Z.of_nat k)%Z) n.
Proof.
  revert lo. induction n as [| n IH]; intros lo.
  - simpl. rewrite Z.add_0_r. ring.
  - change (sum_from f lo (S (S n))) with (f lo + sum_from f (lo + 1) (S n)).
    rewrite IH. rewrite (decomp_sum (fun k => f (lo + Z.of_nat k)%Z) (S n)) by lia.
    simpl pred. rewrite Z.add_0_r. f_equal.
    apply sum_eq. intros i _. f_equal. lia.
Qed.

Lemma upd_same (rho : env) (s : string) (v : R) : upd rho s v s = v.
Proof.
  unfold upd. now rewrite String.eqb_refl.
Qed.

(** The value of the node [Sum(c * legendre(n, x), (n, 0, NP - 1))]. *)
Lemma eval_legendre_series (rho : env) (c x : expr) (NP : Z) :
  (0 < NP)%Z ->
  eval rho (Sum (Mul c (legendre (Symbol "n") x)) "n" 0 (NP - 1))
  = sum_f_R0 (fun k => eval (upd rho "n" (INR k)) c
                       * LegendreP k (eval (upd rho "n" (INR k)) x))
             (Z.to_nat (NP - 1)).
Proof.
  intros HNP. cbn [eval].
  replace (Z.to_nat (NP - 1 - 0 + 1)) with (S (Z.to_nat (NP - 1))) by lia.
  rewrite sum_from_sum_f_R0. apply sum_eq. intros k _.
  rewrite Z.add_0_l, <- INR_IZR_INZ, upd_same, INR_IZR_INZ, Int_part_IZR, Nat2Z.id.
  reflexivity.
Qed.

End SumNode.

Section Legexpansion.
Context {SA : ScatAngle}.

Lemma angle_slot_valid (g : string) (i : nat) (name : string) (value : expr)
    (msg : string) (c : ascii) :
  String.get i g = Some c -> fixed_or_variable c = true ->
  angle_slot g i name value msg = Ok (if Ascii.eqb c "v" then Symbol name else value).
Proof.
  intros Hget Hc. unfold angle_slot, geometry_at. rewrite Hget. simpl.
  unfold fixed_or_variable in Hc.
  destruct (Ascii.eqb c "v"); [reflexivity |]. simpl in Hc. now rewrite Hc.
Qed.

Lemma legexpansion_angles_mono (t_0 t_ex p_0 p_ex : expr) :
  legexpansion_angles t_0 t_ex p_0 p_ex "mono"
  = Ok (mkAngles (Symbol "theta_0") (Symbol "theta_0") p_0 (Add p_0 Pi)).
Proof. reflexivity. Qed.

Lemma legexpansion_angles_valid (t_0 t_ex p_0 p_ex : expr) (g : string) :
  valid_geometry g = true ->
  exists ang, legexpansion_angles t_0 t_ex p_0 p_ex g = Ok ang
    /\ (theta_0 ang = Symbol "theta_0" \/ theta_0 ang = t_0)
    /\ (phi_0 ang = Symbol "phi_0" \/ phi_0 ang = p_0).
Proof.
  intros Hg. unfold valid_geometry in Hg. unfold legexpansion_angles.
  destruct (String.eqb g "mono") eqn:Emono.
  - eexists. split; [reflexivity |]. simpl. auto.
  - simpl in Hg.
    destruct g as [| c0 [| c1 [| c2 [| c3 rest]]]]; try discriminate.
    apply andb_prop in Hg as [Hg H3]. apply andb_prop in Hg as [Hg H2].
    apply andb_prop in Hg as [H0 H1].
    rewrite (angle_slot_valid _ 0 _ _ _ c0) by (reflexivity || assumption). cbn [bind].
    rewrite (angle_slot_valid _ 1 _ _ _ c1) by (reflexivity || assumption). cbn [bind].
    rewrite (angle_slot_valid _ 2 _ _ _ c2) by (reflexivity || assumption). cbn [bind].
    rewrite (angle_slot_valid _ 3 _ _ _ c3) by (reflexivity || assumption). cbn [bind].
    eexists. split; [reflexivity |]. simpl.
    split; [destruct (Ascii.eqb c0 "v") | destruct (Ascii.eqb c2 "v")]; auto.
Qed.

Lemma legexpansion_unfold (self : Volume) (nc : Z) (t_0 t_ex p_0 p_ex : expr)
    (g : string) (ang : angles) :
  ncoefs self = Some nc -> (0 < nc)%Z ->
  legexpansion_angles t_0 t_ex p_0 p_ex g = Ok ang ->
  legexpansion self t_0 t_ex p_0 p_ex g
  = Ok (Sum (Mul (legcoefs self)
                 (legendre (Symbol "n")
                    (scat_angle (Sub Pi (theta_0 ang)) (Symbol "theta_s")
                       (phi_0 ang) (Symbol "phi_s") (a self))))
            "n" 0 (nc - 1)).
Proof.
  intros Hnc Hpos Hang. unfold legexpansion, getattr_ncoefs, assert.
  rewrite Hnc. cbn [bind].
  destruct (Z.ltb_spec 0 nc); [| lia]. cbn [bind]. rewrite Hang. reflexivity.
Qed.

(** C2: with [ncoefs > 0] and an admissible geometry, [legexpansion] returns
    the node [Sum(legcoefs * legendre(n, scat_angle(pi - theta_0, theta_s,
    phi_0, phi_s, a)), (n, 0, ncoefs - 1))] as such, where theta_0 and phi_0
    are the symbol or the supplied value according to the geometry; its value
    is the finite sum over n = 0 .. ncoefs - 1 of coefficient times Legendre
    polynomial. *)
Theorem legexpansion_series (self : Volume) (nc : Z) (t_0 t_ex p_0 p_ex : expr)
    (g : string) :
  ncoefs self = Some nc -> (0 < nc)%Z -> valid_geometry g = true ->
  exists th0 ph0,
    (th0 = Symbol "theta_0" \/ th0 = t_0)
    /\ (ph0 = Symbol "phi_0" \/ ph0 = p_0)
    /\ legexpansion self t_0 t_ex p_0 p_ex g
       = Ok (Sum (Mul (legcoefs self)
                      (legendre (Symbol "n")
                         (scat_angle (Sub Pi th0) (Symbol "theta_s")
                            ph0 (Symbol "phi_s") (a self))))
                 "n" 0 (nc - 1))
    /\ forall rho,
         eval rho (Sum (Mul (legcoefs self)
                          (legendre (Symbol "n")
                             (scat_angle (Sub Pi th0) (Symbol "theta_s")
                                ph0 (Symbol "phi_s") (a self))))
                     "n" 0 (nc - 1))
         = sum_f_R0
             (fun n =>
                eval (upd rho "n" (INR n)) (legcoefs self)
                * LegendreP n
                    (eval (upd rho "n" (INR n))
                       (scat_angle (Sub Pi th0) (Symbol "theta_s")
                          ph0 (Symbol "phi_s") (a self))))%R
             (Z.to_nat (nc - 1)).
Proof.
  intros Hnc Hpos Hg.
  destruct (legexpansion_angles_valid t_0 t_ex p_0 p_ex g Hg) as (ang & Hang & Hth & Hph).
  exists (theta_0 ang), (phi_0 ang). repeat split; try assumption.
  - now apply legexpansion_unfold.
  - intros rho. now apply eval_legendre_series.
Qed.

End Legexpansion.

Lemma legexpansion_series_witness :
  exists th0 ph0,
    (th0 = Symbol "theta_0" \/ th0 = Num (3 # 10))
    /\ (ph0 = Symbol "phi_0" \/ ph0 = Num (1 # 10))
    /\ @legexpansion scat_angle_spec (@Rayleigh scat_angle_spec (Some (3 # 10)%Q) (Some (7 # 10)%Q))
         (Num (3 # 10)) (Num (4 # 10)) (Num (1 # 10)) (Num (2 # 10)) "fvfv"
       = Ok (Sum (Mul (legcoefs (@Rayleigh scat_angle_spec (Some (3 # 10)%Q) (Some (7 # 10)%Q)))
                      (legendre (Symbol "n")
                         (scat_angle_spec (Sub Pi th0) (Symbol "theta_s")
                            ph0 (Symbol "phi_s") default_a)))
                 "n" 0 (3 - 1))
    /\ forall rho,
         eval rho (Sum (Mul (legcoefs (@Rayleigh scat_angle_spec (Some (3 # 10)%Q) (Some (7 # 10)%Q)))
                          (legendre (Symbol "n")
                             (scat_angle_spec (Sub Pi th0) (Symbol "theta_s")
                                ph0 (Symbol "phi_s") default_a)))
                     "n" 0 (3 - 1))
         = sum_f_R0
             (fun n =>
                eval (upd rho "n" (INR n))
                  (legcoefs (@Rayleigh scat_angle_spec (Some (3 # 10)%Q) (Some (7 # 10)%Q)))
                * LegendreP n
                    (eval (upd rho "n" (INR n))
                       (scat_angle_spec (Sub Pi th0) (Symbol "theta_s")
                          ph0 (Symbol "phi_s") default_a)))%R
             (Z.to_nat (3 - 1)).
Proof.
  apply (@legexpansion_series scat_angle_spec
           (@Rayleigh scat_angle_spec (Some (3 # 10)%Q) (Some (7 # 10)%Q)) 3
           (Num (3 # 10)) (Num (4 # 10)) (Num (1 # 10)) (Num (2 # 10)) "fvfv");
    [reflexivity | lia | reflexivity].
Defined.

(** *** Monostatic geometry *)

Section Monostatic.
Context {SA : ScatAngle}.

Lemma legexpansion_mono (self : Volume) (nc : Z) (t_0 t_ex p_0 p_ex : expr) :
  ncoefs self = Some nc -> (0 < nc)%Z ->
  legexpansion self t_0 t_ex p_0 p_ex "mono"
  = Ok (Sum (Mul (legcoefs self)
                 (legendre (Symbol "n")
                    (scat_angle (Sub Pi (Symbol "theta_0")) (Symbol "theta_s")
                       p_0 (Symbol "phi_s") (a self))))
            "n" 0 (nc - 1)).
Proof.
  intros Hnc Hpos.
  apply (legexpansion_unfold self nc t_0 t_ex p_0 p_ex "mono"
           (mkAngles (Symbol "theta_0") (Symbol "theta_0") p_0 (Add p_0 Pi)) Hnc Hpos).
  apply legexpansion_angles_mono.
Qed.

(** C4: in the monostatic geometry two calls that differ only in the exit
    angles return the same result, no exception is raised, and the local
    exit zenith is the incidence zenith, the local exit azimuth the incidence
    azimuth plus pi. *)
Theorem legexpansion_mono_ignores_exit_angles
    (self : Volume) (nc : Z) (t_0 p_0 t_ex1 p_ex1 t_ex2 p_ex2 : expr) :
  ncoefs self = Some nc -> (0 < nc)%Z ->
  legexpansion self t_0 t_ex1 p_0 p_ex1 "mono"
    = legexpansion self t_0 t_ex2 p_0 p_ex2 "mono"
  /\ is_ok (legexpansion self t_0 t_ex1 p_0 p_ex1 "mono") = true
  /\ exists ang,
       legexpansion_angles t_0 t_ex1 p_0 p_ex1 "mono" = Ok ang
       /\ theta_ex ang = theta_0 ang
       /\ phi_0 ang = p_0
       /\ phi_ex ang = Add (phi_0 ang) Pi.
Proof.
  intros Hnc Hpos.
  rewrite (legexpansion_mono self nc t_0 t_ex1 p_0 p_ex1 Hnc Hpos).
  rewrite (legexpansion_mono self nc t_0 t_ex2 p_0 p_ex2 Hnc Hpos).
  repeat split.
  eexists. split; [apply legexpansion_angles_mono |]. simpl. auto.
Qed.

(** C10: in the monostatic geometry the returned expansion keeps the
    incidence zenith as the free symbol theta_0 (the value passed for it is
    not used), takes the incidence azimuth from the argument, sets the exit
    azimuth to it plus pi, and is the same for any other values of the
    incidence zenith and of the two exit angles. *)
Theorem legexpansion_mono_uses_p_0_only
    (self : Volume) (nc : Z) (t_0 t_ex p_0 p_ex t_0' t_ex' p_ex' : expr) :
  ncoefs self = Some nc -> (0 < nc)%Z ->
  legexpansion_angles t_0 t_ex p_0 p_ex "mono"
    = Ok (mkAngles (Symbol "theta_0") (Symbol "theta_0") p_0 (Add p_0 Pi))
  /\ legexpansion self t_0 t_ex p_0 p_ex "mono"
     = Ok (Sum (Mul (legcoefs self)
                    (legendre (Symbol "n")
                       (scat_angle (Sub Pi (Symbol "theta_0")) (Symbol "theta_s")
                          p_0 (Symbol "phi_s") (a self))))
               "n" 0 (nc - 1))
  /\ legexpansion self t_0 t_ex p_0 p_ex "mono"
     = legexpansion self t_0' t_ex' p_0 p_ex' "mono".
Proof.
  intros Hnc Hpos. split; [apply legexpansion_angles_mono |].
  rewrite (legexpansion_mono self nc t_0 t_ex p_0 p_ex Hnc Hpos).
  rewrite (legexpansion_mono self nc t_0' t_ex' p_0 p_ex' Hnc Hpos).
  split; reflexivity.
Qed.

End Monostatic.

Lemma legexpansion_mono_ignores_exit_angles_witness :
  @legexpansion scat_angle_spec (@Rayleigh scat_angle_spec None None)
     (Num (3 # 10)) (Num (4 # 10)) (Num (1 # 10)) (Num (2 # 10)) "mono"
    = @legexpansion scat_angle_spec (@Rayleigh scat_angle_spec None None)
        (Num (3 # 10)) (Num (9 # 10)) (Num (1 # 10)) (Num (8 # 10)) "mono"
  /\ is_ok (@legexpansion scat_angle_spec (@Rayleigh scat_angle_spec None None)
              (Num (3 # 10)) (Num (4 # 10)) (Num (1 # 10)) (Num (2 # 10)) "mono") = true
  /\ exists ang,
       legexpansion_angles (Num (3 # 10)) (Num (4 # 10)) (Num (1 # 10)) (Num (2 # 10)) "mono"
         = Ok ang
       /\ theta_ex ang = theta_0 ang
       /\ phi_0 ang = Num (1 # 10)
       /\ phi_ex ang = Add (phi_0 ang) Pi.
Proof.
  apply (@legexpansion_mono_ignores_exit_angles scat_angle_spec
           (@Rayleigh scat_angle_spec None None) 3
           (Num (3 # 10)) (Num (1 # 10)) (Num (4 # 10)) (Num (2 # 10))
           (Num (9 # 10)) (Num (8 # 10)));
    [reflexivity | lia].
Defined.

Lemma legexpansion_mono_uses_p_0_only_witness :
  legexpansion_angles (Num (3 # 10)) (Num (4 # 10)) (Num (1 # 10)) (Num (2 # 10)) "mono"
    = Ok (mkAngles (Symbol "theta_0") (Symbol "theta_0") (Num (1 # 10))
            (Add (Num (1 # 10)) Pi))
  /\ @legexpansion scat_angle_spec (@Rayleigh scat_angle_spec None None)
       (Num (3 # 10)) (Num (4 # 10)) (Num (1 # 10)) (Num (2 # 10)) "mono"
     = Ok (Sum (Mul (legcoefs (@Rayleigh scat_angle_spec None None))
                    (legendre (Symbol "n")
                       (scat_angle_spec (Sub Pi (Symbol "theta_0")) (Symbol "theta_s")
                          (Num (1 # 10)) (Symbol "phi_s") default_a)))
               "n" 0 (3 - 1))
  /\ @legexpansion scat_angle_spec (@Rayleigh scat_angle_spec None None)
       (Num (3 # 10)) (Num (4 # 10)) (Num (1 # 10)) (Num (2 # 10)) "mono"
     = @legexpansion scat_angle_spec (@Rayleigh scat_angle_spec None None)
         (Num (7 # 10)) (Num (9 # 10)) (Num (1 # 10)) (Num (8 # 10)) "mono".
Proof.
  apply (@legexpansion_mono_uses_p_0_only scat_angle_spec
           (@Rayleigh scat_angle_spec None None) 3
           (Num (3 # 10)) (Num (4 # 10)) (Num (1 # 10)) (Num (2 # 10))
           (Num (7 # 10)) (Num (9 # 10)) (Num (8 # 10)));
    [reflexivity | lia].
Defined.

(** The monostatic result does change with the incidence azimuth. *)
Example legexpansion_mono_varies_with_p_0 :
  @legexpansion scat_angle_spec (@Rayleigh scat_angle_spec None None)
     (Num (3 # 10)) (Num (4 # 10)) (Num (1 # 10)) (Num (2 # 10)) "mono"
  <> @legexpansion scat_angle_spec (@Rayleigh scat_angle_spec None None)
       (Num (3 # 10)) (Num (4 # 10)) (Num (5 # 10)) (Num (2 # 10)) "mono".
Proof.
  cbv [legexpansion getattr_ncoefs Rayleigh ncoefs bind assert Z.ltb Z.compare
       legexpansion_angles String.eqb Ascii.eqb Bool.eqb phi_0 theta_0 a
       scat_angle scat_angle_spec].
  intros E. injection E as E. discriminate E.
Qed.

(** ** The surface term and the interaction coefficient ([rt1.py]) *)

Section FirstOrder.
Local Open Scope R_scope.

Lemma getattr_tau (self : RT1) : getattr self "tau" = Raise (AttributeError "tau").
Proof. reflexivity. Qed.

(** Whatever the module binds, [surface] does not return a value: the
    instance has no attribute [tau]. *)
Lemma surface_never_returns (globals : namespace) (self : RT1) :
  is_ok (surface globals self) = false.
Proof.
  unfold surface. destruct (load_global globals "I0") as [v | e]; [| reflexivity].
  cbn [bind]. destruct (as_float v); reflexivity.
Qed.

(** C3: [surface] reads the module-level name [I0] and the attribute [tau]
    of the instance itself; an [RT1] instance has no such attribute, so for
    every instance the call raises [AttributeError] instead of evaluating
    self.I0 * exp(-tau/mu_0 - tau/mu_ex) * mu_0 * brdf(...) with the volume's
    tau. *)
Theorem surface_raises_AttributeError (self : RT1) :
  surface rt1_globals self = Raise (AttributeError "tau").
Proof. reflexivity. Qed.

Lemma xrange_pos (lo hi : Z) :
  (lo < hi)%Z -> xrange lo hi = lo :: xrange (lo + 1) hi.
Proof.
  intros H. unfold xrange.
  replace (Z.to_nat (hi - lo)) with (S (Z.to_nat (hi - (lo + 1)))) by lia.
  cbn [seq map]. f_equal; [lia |].
  rewrite <- seq_shift, map_map. apply map_ext. intros i. lia.
Qed.

(** [_calc_Fint] never hands back a number: when no exception interrupts the
    loops, the function falls off its end and the result is [None]. *)
Lemma calc_Fint_never_a_float (globals : namespace) (self : RT1) (mu1 mu2 : R) :
  match _calc_Fint globals self mu1 mu2 with
  | Ok v => v = VNone
  | Raise _ => True
  end.
Proof.
  unfold _calc_Fint.
  destruct (Fn self); cbn [bind]; [| exact I].
  match goal with |- context [foldM ?b ?l ?s] => destruct (foldM b l s) end;
    cbn [bind]; [reflexivity | exact I].
Qed.

(** C1: with a positive truncation [_nmax], [_calc_Fint] does not return the
    sum S: the first statement of the inner loop reads the unbound name
    [todo] and the call raises [NameError]. *)
Theorem calc_Fint_raises_NameError
    (i0 m0 mex : R) (rv : Volume) (srf : Surface) (nmax : positive)
    (coefs : Coefficients) (mu1 mu2 : R) :
  _calc_Fint rt1_globals (mkRT1 i0 m0 mex rv srf (Z.pos nmax) (Some coefs)) mu1 mu2
  = Raise (NameError "todo").
Proof.
  unfold _calc_Fint. cbn [Fn _nmax bind].
  rewrite (xrange_pos 0 (Z.pos nmax)) by lia. cbn [foldM].
  rewrite (xrange_pos 1 (0 + 1 + 1)) by lia. cbn [foldM].
  reflexivity.
Qed.

End FirstOrder.

(** ** Linear combinations ([LinCombV._Vcombiner]) *)

Section Loops.

Lemma mapM_ok {A B : Type} (f : A -> py B) (l : list A) :
  (forall x, In x l -> exists y, f x = Ok y) -> exists ys, mapM f l = Ok ys.
Proof.
  induction l as [| x xs IH]; intros H.
  - now exists [].
  - destruct (H x (or_introl eq_refl)) as [y Hy].
    destruct IH as [ys Hys]; [intros z Hz; apply H; now right |].
    exists (y :: ys). cbn [mapM]. now rewrite Hy, Hys.
Qed.

Lemma mapM_Forall2 {A B : Type} (f : A -> py B) (l : list A) (ys : list B) :
  mapM f l = Ok ys -> Forall2 (fun x y => f x = Ok y) l ys.
Proof.
  revert ys. induction l as [| x xs IH]; intros ys H; cbn [mapM] in H.
  - injection H as <-. constructor.
  - destruct (f x) as [y | e] eqn:Hy; cbn [bind] in H; [| discriminate].
    destruct (mapM f xs) as [ys' | e]; cbn [bind] in H; [| discriminate].
    injection H as <-. constructor; [assumption | now apply IH].
Qed.

(** A loop that appends one computed element per turn is a comprehension. *)
Lemma foldM_append {A B : Type} (f : A -> py B) (l : list A) (acc : list B) :
  foldM (fun acc x => y <- f x ;; Ok (acc ++ [y])) l acc
  = (ys <- mapM f l ;; Ok (acc ++ ys)).
Proof.
  revert acc. induction l as [| x xs IH]; intros acc; cbn [foldM mapM bind].
  - now rewrite app_nil_r.
  - destruct (f x) as [y | e]; cbn [bind]; [| reflexivity].
    rewrite IH. destruct (mapM f xs) as [ys | e]; cbn [bind]; [| reflexivity].
    now rewrite <- app_assoc.
Qed.

Lemma where_from_In (mask : list bool) (i j : nat) :
  In j (where_from i mask)
  <-> exists k, j = (i + k)%nat /\ nth_error mask k = Some true.
Proof.
  revert i. induction mask as [| b m IH]; intros i; cbn [where_from].
  - split; [intros [] | intros (k & _ & H); destruct k; discriminate].
  - assert (Hrest : In j (where_from (S i) m)
                    <-> exists k, j = (i + S k)%nat /\ nth_error m k = Some true).
    { rewrite IH. split; intros (k & -> & H); exists k; split; auto; lia. }
    destruct b; cbn [In]; rewrite Hrest; split.
    + intros [<- | (k & -> & H)]; [exists 0%nat | exists (S k)]; split; auto; lia.
    + intros ([| k] & -> & H); [left; lia | right; exists k; auto].
    + intros (k & -> & H). exists (S k). auto.
    + intros ([| k] & -> & H); [discriminate | exists k; auto].
Qed.

Lemma np_where_In {A : Type} (p : A -> bool) (l : list A) (j : nat) :
  In j (np_where (map p l))
  <-> exists x, nth_error l j = Some x /\ p x = true.
Proof.
  unfold np_where. rewrite where_from_In. split.
  - intros (k & -> & H). rewrite nth_error_map in H.
    destruct (nth_error l k) as [x |] eqn:E; [| discriminate].
    exists x. split; [assumption |]. now injection H.
  - intros (x & E & H). exists j. split; [reflexivity |].
    rewrite nth_error_map, E. cbn. now rewrite H.
Qed.

Lemma np_take_where_from {A : Type} (p : A -> bool) (pre l : list A) :
  np_take (pre ++ l) (where_from (List.length pre) (map p l)) = Ok (filter p l).
Proof.
  revert pre. induction l as [| x xs IH]; intros pre; [reflexivity |].
  cbn [map where_from filter].
  assert (Hxs : np_take (pre ++ x :: xs) (where_from (S (List.length pre)) (map p xs))
                = Ok (filter p xs)).
  { specialize (IH (pre ++ [x])). rewrite <- app_assoc in IH. cbn [app] in IH.
    rewrite length_app in IH. cbn [List.length] in IH.
    now rewrite Nat.add_1_r in IH. }
  destruct (p x); [| exact Hxs].
  unfold np_take in *. cbn [mapM]. rewrite nth_error_app2 by lia.
  rewrite Nat.sub_diag. cbn [nth_error bind]. now rewrite Hxs.
Qed.

(** [np.take] at the positions found by [np.where] selects the elements that
    satisfy the mask. *)
Lemma np_take_where {A : Type} (p : A -> bool) (l : list A) :
  np_take l (np_where (map p l)) = Ok (filter p l).
Proof. exact (np_take_where_from p [] l). Qed.

Lemma fold_left_max_spec (l : list Z) (x : Z) :
  In (fold_left Z.max l x) (x :: l)
  /\ forall y, In y (x :: l) -> (y <= fold_left Z.max l x)%Z.
Proof.
  revert x. induction l as [| z zs IH]; intros x; cbn [fold_left].
  - split; [now left | intros y [<- | []]; lia].
  - destruct (IH (Z.max x z)) as [Hin Hle]. split.
    + destruct Hin as [E | Hin]; [| now right; right].
      rewrite <- E. destruct (Z.max_spec x z) as [[_ ->] | [_ ->]]; cbn; auto.
    + intros y [-> | [-> | Hy]].
      * specialize (Hle (Z.max y z) (or_introl eq_refl)). lia.
      * specialize (Hle (Z.max x y) (or_introl eq_refl)). lia.
      * apply Hle. now right.
Qed.

Lemma pymax_spec (l : list Z) (m : Z) :
  pymax l = Ok m -> In m l /\ forall y, In y l -> (y <= m)%Z.
Proof.
  destruct l as [| x xs]; cbn [pymax]; [discriminate |].
  intros E. injection E as <-. apply fold_left_max_spec.
Qed.

Lemma pymax_ok (l : list Z) : l <> [] -> exists m, pymax l = Ok m.
Proof.
  destruct l as [| x xs]; [congruence |]. intros _. now eexists.
Qed.

End Loops.

Section AngleParameters.

Lemma a_eqb_iff (x y : list Q) : a_eqb x y = true <-> Forall2 Qeq x y.
Proof.
  unfold a_eqb. revert y. induction x as [| u us IH]; intros [| v vs]; cbn.
  - split; [constructor | reflexivity].
  - split; [discriminate | intros H; inversion H].
  - split; [discriminate | intros H; inversion H].
  - specialize (IH vs). cbn in IH.
    rewrite andb_true_iff in *. rewrite andb_true_iff.
    split.
    + intros (Hlen & Huv & Hrest). constructor; [now apply Qeq_bool_iff |].
      apply IH. auto.
    + intros H. inversion H as [| ? ? ? ? Huv Hrest]; subst.
      apply IH in Hrest as [Hlen Hall]. repeat split; auto.
      now apply Qeq_bool_iff.
Qed.

Lemma a_eqb_refl (x : list Q) : a_eqb x x = true.
Proof.
  apply a_eqb_iff. induction x; constructor; [reflexivity | assumption].
Qed.

Lemma Forall2_Qeq_sym (x y : list Q) : Forall2 Qeq x y -> Forall2 Qeq y x.
Proof.
  induction 1; constructor; [now symmetry | assumption].
Qed.

Lemma Forall2_Qeq_trans (x y z : list Q) :
  Forall2 Qeq x y -> Forall2 Qeq y z -> Forall2 Qeq x z.
Proof.
  intros H. revert z. induction H as [| u v us vs Huv _ IH]; intros z Hz;
    inversion Hz; subst; constructor.
  - etransitivity; eassumption.
  - now apply IH.
Qed.

(** Equal parameters select the same positions. *)
Lemma a_eqb_same_class (x y z : list Q) :
  a_eqb x y = true -> a_eqb z x = a_eqb z y.
Proof.
  intros Hxy. apply a_eqb_iff in Hxy.
  destruct (a_eqb z x) eqn:Ezx, (a_eqb z y) eqn:Ezy; try reflexivity.
  - apply a_eqb_iff in Ezx.
    assert (H : a_eqb z y = true)
      by (apply a_eqb_iff; eapply Forall2_Qeq_trans; eassumption).
    congruence.
  - apply a_eqb_iff in Ezy.
    assert (H : a_eqb z x = true).
    { apply a_eqb_iff. eapply Forall2_Qeq_trans; [eassumption |].
      now apply Forall2_Qeq_sym. }
    congruence.
Qed.

End AngleParameters.

Section Combiner.
Context {SA : ScatAngle}.

Lemma assert_almost_equal_ok (desired actual : Q) (msg : string) :
  (Qabs (desired - actual) < 15 # 100000000)%Q ->
  assert_almost_equal desired actual msg = Ok tt.
Proof.
  intros H. unfold assert_almost_equal.
  destruct (Qle_bool (15 # 100000000) (Qabs (desired - actual))) eqn:E;
    [| reflexivity].
  apply Qle_bool_iff in E. exfalso. apply (Qlt_not_le _ _ H E).
Qed.


Lemma equals_In (Vchoices : list Vchoice) (idx : list nat) :
  In idx (equals Vchoices)
  <-> exists V, In V Vchoices /\ idx = np_where (map (same_a V) Vchoices).
Proof.
  unfold equals. rewrite in_map_iff. split; intros (V & H1 & H2); exists V; auto.
Qed.

Lemma getattr_ncoefs_all (l : list Vchoice) :
  forallb has_ncoefs l = true ->
  exists ncs, mapM (fun V => getattr_ncoefs (snd V)) l = Ok ncs
              /\ List.length ncs = List.length l.
Proof.
  induction l as [| V l IH]; cbn [forallb mapM]; intros H.
  - now exists [].
  - apply andb_prop in H as [HV Hl]. destruct (IH Hl) as (ncs & E & Hlen).
    unfold has_ncoefs in HV. unfold getattr_ncoefs at 1.
    destruct (ncoefs (snd V)) as [k |]; [| discriminate].
    exists (k :: ncs). cbn [bind]. rewrite E. cbn [bind List.length]. auto.
Qed.

Lemma getattr_ncoefs_Forall2 (l : list Vchoice) (ncs : list Z) :
  mapM (fun V => getattr_ncoefs (snd V)) l = Ok ncs ->
  Forall2 (fun V k => ncoefs (snd V) = Some k) l ncs.
Proof.
  intros H. apply mapM_Forall2 in H.
  induction H as [| V k l ncs HV _ IH]; constructor; [| assumption].
  unfold getattr_ncoefs in HV. destruct (ncoefs (snd V)); congruence.
Qed.

Lemma forallb_filter {A : Type} (p q : A -> bool) (l : list A) :
  forallb p l = true -> forallb p (filter q l) = true.
Proof.
  rewrite !forallb_forall. intros H x Hx. apply filter_In in Hx as [Hx _]. auto.
Qed.

(** The intermediate phase function of a row of [equals] exists as soon as
    every choice carries [ncoefs]. *)
Lemma Vdummy_of_ok (Vchoices : list Vchoice) (idx : list nat) :
  forallb has_ncoefs Vchoices = true -> In idx (equals Vchoices) ->
  exists Vdummy, Vdummy_of Vchoices idx = Ok Vdummy.
Proof.
  intros Hall Hidx. apply equals_In in Hidx as (V & HV & ->).
  unfold Vdummy_of. rewrite np_take_where. cbn [bind].
  destruct (getattr_ncoefs_all (filter (same_a V) Vchoices)) as (ncs & E & Hlen);
    [now apply forallb_filter |].
  rewrite E. cbn [bind].
  destruct (pymax_ok ncs) as [m Hm].
  { intros ->. cbn in Hlen. symmetry in Hlen. apply length_zero_iff_nil in Hlen.
    assert (Hin : In V (filter (same_a V) Vchoices)).
    { apply filter_In. split; [assumption | apply a_eqb_refl]. }
    rewrite Hlen in Hin. destruct Hin. }
  rewrite Hm. cbn [bind]. now eexists.
Qed.

Lemma fold_Vdummy_step_ncoefs (l : list Vchoice) (V0 : Volume) :
  ncoefs (fold_left Vdummy_step l V0) = ncoefs V0.
Proof.
  revert V0. induction l as [| V l IH]; intros V0; [reflexivity |].
  cbn [fold_left]. now rewrite IH.
Qed.

Lemma fold_Vdummy_step_legcoefs (rho : env) (l : list Vchoice) (V0 : Volume) :
  eval rho (legcoefs (fold_left Vdummy_step l V0))
  = (eval rho (legcoefs V0) + weighted_sum (fun V => eval rho (legcoefs V)) l)%R.
Proof.
  revert V0. induction l as [| V l IH]; intros V0; cbn [fold_left weighted_sum].
  - ring.
  - rewrite IH. cbn [Vdummy_step legcoefs eval]. ring.
Qed.

Lemma fold_Vdummy_step_func (rho : env) (l : list Vchoice) (V0 : Volume) :
  eval rho (_func (fold_left Vdummy_step l V0))
  = (eval rho (_func V0) + weighted_sum (fun V => eval rho (_func V)) l)%R.
Proof.
  revert V0. induction l as [| V l IH]; intros V0; cbn [fold_left weighted_sum].
  - ring.
  - rewrite IH. cbn [Vdummy_step _func eval]. ring.
Qed.

Lemma fold_Vdummy_step_a (l : list Vchoice) (V0 : Volume) :
  l <> [] -> exists W, In W l /\ a (fold_left Vdummy_step l V0) = a (snd W).
Proof.
  revert V0. induction l as [| V l IH]; intros V0 Hl; [congruence |].
  cbn [fold_left]. destruct l as [| V' l'].
  - exists V. split; [now left | reflexivity].
  - destruct (IH (Vdummy_step V0 V)) as (W & HW & E); [discriminate |].
    exists W. split; [now right | exact E].
Qed.

Lemma Q2R_0 : Q2R 0 = 0%R.
Proof. unfold Q2R. simpl. lra. Qed.

(** What one turn of the loop over [equal_a] builds for the row of [V]. *)
Lemma Vdummy_of_class (Vchoices : list Vchoice) (V : Vchoice) (Vd : Volume) :
  In V Vchoices ->
  Vdummy_of Vchoices (np_where (map (same_a V) Vchoices)) = Ok Vd ->
  np_take Vchoices (np_where (map (same_a V) Vchoices))
    = Ok (filter (same_a V) Vchoices)
  /\ class_phase_function (filter (same_a V) Vchoices) Vd.
Proof.
  intros HV H. split; [apply np_take_where |].
  unfold Vdummy_of in H. rewrite np_take_where in H. cbn [bind] in H.
  set (members := filter (same_a V) Vchoices) in *.
  assert (Hne : members <> []).
  { assert (Hin : In V members)
      by (apply filter_In; split; [assumption | apply a_eqb_refl]).
    intros E. rewrite E in Hin. destruct Hin. }
  destruct (mapM (fun V => getattr_ncoefs (snd V)) members) as [ncs | e] eqn:Encs;
    cbn [bind] in H; [| discriminate].
  destruct (pymax ncs) as [m | e] eqn:Em; cbn [bind] in H; [| discriminate].
  injection H as <-.
  apply getattr_ncoefs_Forall2 in Encs. apply pymax_spec in Em as [Hin Hmax].
  repeat split.
  - exists m. rewrite fold_Vdummy_step_ncoefs. split; [reflexivity |]. split.
    + clear Hmax Hne. induction Encs as [| W k l ncs' HW _ IH]; [destruct Hin |].
      destruct Hin as [-> | Hin].
      * exists W. split; [now left | assumption].
      * destruct (IH Hin) as (W' & HW' & E). exists W'. split; [now right | assumption].
    + intros W k HW Hk. apply Hmax. clear Hmax Hin Hne.
      induction Encs as [| W' k' l ncs' HW' _ IH]; [destruct HW |].
      destruct HW as [-> | HW]; [left; congruence | right; now apply IH].
  - intros rho. rewrite fold_Vdummy_step_legcoefs. cbn [set_ncoefs Phasefunction legcoefs eval].
    rewrite Q2R_0. ring.
  - intros rho. rewrite fold_Vdummy_step_func. cbn [set_ncoefs Phasefunction _func eval].
    rewrite Q2R_0. ring.
  - now apply fold_Vdummy_step_a.
Qed.

Lemma eval_fold_left_Add (rho : env) (es : list expr) (e : expr) :
  eval rho (fold_left Add es e)
  = (eval rho e + fold_right Rplus 0 (map (eval rho) es))%R.
Proof.
  revert e. induction es as [| e' es IH]; intros e; cbn [fold_left map fold_right].
  - ring.
  - rewrite IH. cbn [eval]. ring.
Qed.

(** [np.sum] of expressions is worth the sum of their values. *)
Lemma eval_np_sum_expr (rho : env) (es : list expr) :
  eval rho (np_sum_expr es) = fold_right Rplus 0%R (map (eval rho) es).
Proof.
  destruct es as [| e es]; cbn [np_sum_expr map fold_right].
  - apply Q2R_0.
  - apply eval_fold_left_Add.
Qed.

Lemma a_eqb_sym (x y : list Q) : a_eqb x y = true -> a_eqb y x = true.
Proof.
  rewrite !a_eqb_iff. apply Forall2_Qeq_sym.
Qed.

Lemma a_eqb_trans (x y z : list Q) :
  a_eqb x y = true -> a_eqb y z = true -> a_eqb x z = true.
Proof.
  rewrite !a_eqb_iff. apply Forall2_Qeq_trans.
Qed.

(** Two rows of [equals] that share a position are the same row. *)
Lemma equals_rows_disjoint (Vchoices : list Vchoice) (idx1 idx2 : list nat) (i : nat) :
  In idx1 (equals Vchoices) -> In idx2 (equals Vchoices) ->
  In i idx1 -> In i idx2 -> idx1 = idx2.
Proof.
  intros H1 H2 Hi1 Hi2.
  apply equals_In in H1 as (Vp & _ & ->). apply equals_In in H2 as (Vq & _ & ->).
  apply np_where_In in Hi1 as (Vi & Ei & Hp). apply np_where_In in Hi2 as (Vi' & Ei' & Hq).
  assert (Vi' = Vi) by congruence. subst Vi'. unfold same_a in Hp, Hq.
  assert (Hpq : a_eqb (a (snd Vp)) (a (snd Vq)) = true)
    by (eapply a_eqb_trans; [apply a_eqb_sym; exact Hp | exact Hq]).
  f_equal. apply map_ext. intros W. unfold same_a. now apply a_eqb_same_class.
Qed.

Section SetOrder.
Variable list_set : list (list nat) -> list (list nat).
Hypothesis list_set_perm :
  forall rows, Permutation (list_set rows) (nodup index_eq_dec rows).

Lemma equal_a_In (Vchoices : list Vchoice) (idx : list nat) :
  In idx (equal_a list_set Vchoices) <-> In idx (equals Vchoices).
Proof.
  unfold equal_a. split; intros H.
  - apply (nodup_In index_eq_dec).
    eapply Permutation_in; [apply list_set_perm | exact H].
  - eapply Permutation_in; [apply Permutation_sym, list_set_perm |].
    now apply nodup_In.
Qed.

Lemma equal_a_NoDup (Vchoices : list Vchoice) : NoDup (equal_a list_set Vchoices).
Proof.
  unfold equal_a. eapply Permutation_NoDup.
  - apply Permutation_sym, list_set_perm.
  - apply NoDup_nodup.
Qed.

(** [_Vcombiner] returns as soon as the weights pass the check and every
    choice carries [ncoefs]. *)
Lemma Vcombiner_total (ta om : option Q) (Vchoices : list Vchoice) :
  forallb has_ncoefs Vchoices = true ->
  (Qabs (1 - np_sum (map fst Vchoices)) < 15 # 100000000)%Q ->
  exists attrs dummies,
    Forall2 (fun idx Vd => Vdummy_of Vchoices idx = Ok Vd)
         (equal_a list_set Vchoices) dummies
    /\ ncoefs attrs <> None
    /\ legcoefs attrs = Num 0
    /\ _Vcombiner list_set ta om Vchoices = Ok (mkVcomb attrs dummies).
Proof.
  intros Hall Hsum. unfold _Vcombiner.
  rewrite assert_almost_equal_ok by assumption. cbn [bind].
  destruct (getattr_ncoefs_all Vchoices Hall) as (ncs & E & Hlen).
  rewrite E. cbn [bind].
  destruct (pymax_ok ncs) as [m Hm].
  { intros ->. cbn in Hlen. symmetry in Hlen. apply length_zero_iff_nil in Hlen.
    subst Vchoices. cbn in Hsum. revert Hsum. apply Qle_not_lt.
    compute. discriminate. }
  rewrite Hm. cbn [bind]. rewrite foldM_append.
  destruct (mapM_ok (Vdummy_of Vchoices) (equal_a list_set Vchoices)) as [dummies Hd].
  { intros idx Hidx. apply Vdummy_of_ok; [assumption | now apply equal_a_In]. }
  rewrite Hd. cbn [bind app].
  eexists. exists dummies.
  split; [now apply mapM_Forall2 |].
  split; [| split; [| reflexivity]].
  - clear. set (V0 := set_ncoefs _ _). assert (H0 : ncoefs V0 <> None) by discriminate.
    revert H0. generalize V0. induction Vchoices as [| V l IH]; intros W HW; [exact HW |].
    cbn [fold_left]. apply IH. exact HW.
  - clear. set (V0 := set_ncoefs _ _). assert (H0 : legcoefs V0 = Num 0) by reflexivity.
    revert H0. generalize V0. induction Vchoices as [| V l IH]; intros W HW; [exact HW |].
    cbn [fold_left]. apply IH. exact HW.
Qed.




Lemma Forall2_weaken_In {A B : Type} (P Q : A -> B -> Prop) (l : list A) (l' : list B) :
  (forall x y, In x l -> P x y -> Q x y) -> Forall2 P l l' -> Forall2 Q l l'.
Proof.
  intros H F. induction F as [| x y l l' Hxy _ IH]; constructor.
  - apply H; [now left | assumption].
  - apply IH. intros x' y' Hx'. apply H. now right.
Qed.

Lemma valid_component_has_ncoefs (l : list Vchoice) :
  forallb valid_component l = true -> forallb has_ncoefs l = true.
Proof.
  rewrite !forallb_forall. intros H V HV. specialize (H V HV).
  unfold valid_component in H. unfold has_ncoefs.
  destruct (ncoefs (snd V)); [reflexivity | discriminate].
Qed.

Lemma class_phase_function_positive (Vchoices : list Vchoice) (V : Vchoice) (Vd : Volume) :
  forallb valid_component Vchoices = true ->
  class_phase_function (filter (same_a V) Vchoices) Vd ->
  exists m, ncoefs Vd = Some m /\ (0 < m)%Z.
Proof.
  intros Hall ((m & Hm & (W & HW & HWm) & _) & _). exists m. split; [assumption |].
  apply filter_In in HW as [HW _].
  rewrite forallb_forall in Hall. specialize (Hall W HW).
  unfold valid_component in Hall. rewrite HWm in Hall. now apply Z.ltb_lt.
Qed.


Lemma equal_parameters_iff (x y : list Q) :
  equal_parameters x y = true <-> Forall2 Qeq x y.
Proof.
  revert y. induction x as [| u us IH]; intros [| v vs]; cbn [equal_parameters].
  - split; [constructor | reflexivity].
  - split; [discriminate | intros H; inversion H].
  - split; [discriminate | intros H; inversion H].
  - rewrite andb_true_iff, IH. destruct (Qeq_dec u v) as [Huv | Huv]; split.
    + intros [_ H]. now constructor.
    + intros H. inversion H; subst. auto.
    + intros [H _]. discriminate.
    + intros H. inversion H; subst. contradiction.
Qed.

Lemma a_eqb_equal_parameters (x y : list Q) : a_eqb x y = equal_parameters x y.
Proof.
  destruct (a_eqb x y) eqn:E1, (equal_parameters x y) eqn:E2; try reflexivity.
  - apply a_eqb_iff, equal_parameters_iff in E1. congruence.
  - apply equal_parameters_iff, a_eqb_iff in E2. congruence.
Qed.

Lemma filter_same_a (Vchoices : list Vchoice) (Vi : Vchoice) :
  filter (same_a Vi) Vchoices = class_members Vchoices Vi.
Proof.
  unfold class_members. apply filter_ext. intros VV. apply a_eqb_equal_parameters.
Qed.

(** C6: for components with positive [ncoefs] and weights that pass the
    check, [_Vcombiner] returns; the rows of [equal_a] partition the
    positions of the choices by equality of their [a] parameters (as lists
    of numbers, [Forall2 Qeq]); the choices [np.take] selects for a row are
    exactly the choices with the parameters of that row, in their order;
    each intermediate phase function has the weighted sums over that class
    as [_func] and [legcoefs] and the largest [ncoefs] of the class; and for
    an admissible geometry the [legexpansion] of the combined object is the
    [np.sum] of the expansions of the intermediate phase functions, worth the
    sum of their values, while its own [legcoefs] stay [0.]. *)
Theorem Vcombiner_sums_class_expansions
    (ta om : option Q) (Vchoices : list Vchoice) :
  forallb valid_component Vchoices = true ->
  (Qabs (1 - np_sum (map fst Vchoices)) < 15 # 100000000)%Q ->
  exists vc,
    _Vcombiner list_set ta om Vchoices = Ok vc
    /\ (forall i Vi, nth_error Vchoices i = Some Vi ->
          exists idx, In idx (equal_a list_set Vchoices) /\ In i idx)
    /\ (forall idx, In idx (equal_a list_set Vchoices) ->
          exists Vi, In Vi Vchoices
            /\ forall j, In j idx
                 <-> exists Vj, nth_error Vchoices j = Some Vj
                       /\ Forall2 Qeq (a (snd Vj)) (a (snd Vi)))
    /\ (forall idx1 idx2 i,
          In idx1 (equal_a list_set Vchoices) ->
          In idx2 (equal_a list_set Vchoices) ->
          In i idx1 -> In i idx2 -> idx1 = idx2)
    /\ NoDup (equal_a list_set Vchoices)
    /\ Forall2 (fun idx Vd =>
                  exists Vi, In Vi Vchoices
                    /\ (forall j, In j idx
                          <-> exists Vj, nth_error Vchoices j = Some Vj
                                /\ Forall2 Qeq (a (snd Vj)) (a (snd Vi)))
                    /\ np_take Vchoices idx = Ok (class_members Vchoices Vi)
                    /\ (forall W, In W (class_members Vchoices Vi)
                          <-> In W Vchoices /\ Forall2 Qeq (a (snd W)) (a (snd Vi)))
                    /\ class_phase_function (class_members Vchoices Vi) Vd)
         (equal_a list_set Vchoices) (dummylegexpansion vc)
    /\ legcoefs (Vcomb_attrs vc) = Num 0
    /\ forall t_0 t_ex p_0 p_ex g, valid_geometry g = true ->
         exists es,
           Forall2 (fun Vd e => legexpansion Vd t_0 t_ex p_0 p_ex g = Ok e)
             (dummylegexpansion vc) es
           /\ Vcomb_legexpansion vc t_0 t_ex p_0 p_ex g = Ok (np_sum_expr es)
           /\ forall rho, eval rho (np_sum_expr es)
                          = fold_right Rplus 0%R (map (eval rho) es).
Proof.
  intros Hvalid Hsum.
  pose proof (valid_component_has_ncoefs Vchoices Hvalid) as Hall.
  destruct (Vcombiner_total ta om Vchoices Hall Hsum)
    as (attrs & dummies & Hdummies & _ & Hlegcoefs & Hcomb).
  assert (Hrow : forall Vi j,
            In j (np_where (map (same_a Vi) Vchoices))
            <-> exists Vj, nth_error Vchoices j = Some Vj
                  /\ Forall2 Qeq (a (snd Vj)) (a (snd Vi))).
  { intros Vi j. rewrite np_where_In. unfold same_a.
    split; intros (Vj & E & H); exists Vj; (split; [exact E |]); now apply a_eqb_iff. }
  assert (Hclasses :
    Forall2 (fun idx Vd =>
               exists V, In V Vchoices
                 /\ idx = np_where (map (same_a V) Vchoices)
                 /\ np_take Vchoices idx = Ok (filter (same_a V) Vchoices)
                 /\ class_phase_function (filter (same_a V) Vchoices) Vd)
      (equal_a list_set Vchoices) dummies).
  { eapply Forall2_weaken_In; [| exact Hdummies].
    intros idx Vd Hidx Hd. cbv beta in Hd.
    apply equal_a_In, equals_In in Hidx as (V & HV & ->).
    exists V. split; [assumption |]. split; [reflexivity |].
    now apply Vdummy_of_class. }
  exists (mkVcomb attrs dummies). cbn [dummylegexpansion Vcomb_attrs].
  split; [exact Hcomb |].
  split; [| split; [| split; [| split; [| split; [| split]]]]].
  - intros i Vi Hi. exists (np_where (map (same_a Vi) Vchoices)). split.
    + apply equal_a_In, equals_In. exists Vi. split; [| reflexivity].
      eapply nth_error_In; eassumption.
    + apply np_where_In. exists Vi. split; [assumption | apply a_eqb_refl].
  - intros idx Hidx. apply equal_a_In, equals_In in Hidx as (Vi & HVi & ->).
    exists Vi. split; [assumption |]. apply Hrow.
  - intros idx1 idx2 i H1 H2 Hi1 Hi2. apply equal_a_In in H1, H2.
    exact (equals_rows_disjoint Vchoices idx1 idx2 i H1 H2 Hi1 Hi2).
  - apply equal_a_NoDup.
  - eapply Forall2_weaken_In; [| exact Hclasses].
    intros idx Vd _ (V & HV & -> & Htake & Hclass).
    rewrite filter_same_a in Htake, Hclass.
    exists V. split; [exact HV |]. split; [apply Hrow |]. split; [exact Htake |].
    split; [| exact Hclass].
    intros W. unfold class_members. rewrite filter_In, equal_parameters_iff. reflexivity.
  - exact Hlegcoefs.
  - intros t_0 t_ex p_0 p_ex g Hg.
    destruct (mapM_ok (fun lexp => legexpansion lexp t_0 t_ex p_0 p_ex g) dummies)
      as [es Hes].
    { intros Vd HVd.
      assert (Hpos : exists m, ncoefs Vd = Some m /\ (0 < m)%Z).
      { clear - Hclasses HVd Hvalid.
        induction Hclasses as [| idx Vd' l l' H _ IH]; [destruct HVd |].
        destruct HVd as [-> | HVd]; [| now apply IH].
        destruct H as (V & _ & _ & _ & Hclass).
        eapply class_phase_function_positive; eassumption. }
      destruct Hpos as (m & Hm & Hmpos).
      destruct (legexpansion_angles_valid t_0 t_ex p_0 p_ex g Hg) as (ang & Hang & _).
      rewrite (legexpansion_unfold Vd m t_0 t_ex p_0 p_ex g ang Hm Hmpos Hang).
      now eexists. }
    exists es. split; [now apply mapM_Forall2 |]. split.
    + unfold Vcomb_legexpansion. cbn [dummylegexpansion]. now rewrite Hes.
    + intros rho. apply eval_np_sum_expr.
Qed.

End SetOrder.
End Combiner.

Lemma list_set_nodup_perm (rows : list (list nat)) :
  Permutation (list_set_nodup rows) (nodup index_eq_dec rows).
Proof. apply Permutation_refl. Qed.



Lemma Vcombiner_sums_class_expansions_witness :
  exists vc,
    _Vcombiner list_set_nodup None None weights_04_06 = Ok vc
    /\ (forall i Vi, nth_error weights_04_06 i = Some Vi ->
          exists idx, In idx (equal_a list_set_nodup weights_04_06) /\ In i idx)
    /\ (forall idx, In idx (equal_a list_set_nodup weights_04_06) ->
          exists Vi, In Vi weights_04_06
            /\ forall j, In j idx
                 <-> exists Vj, nth_error weights_04_06 j = Some Vj
                       /\ Forall2 Qeq (a (snd Vj)) (a (snd Vi)))
    /\ (forall idx1 idx2 i,
          In idx1 (equal_a list_set_nodup weights_04_06) ->
          In idx2 (equal_a list_set_nodup weights_04_06) ->
          In i idx1 -> In i idx2 -> idx1 = idx2)
    /\ NoDup (equal_a list_set_nodup weights_04_06)
    /\ Forall2 (fun idx Vd =>
                  exists Vi, In Vi weights_04_06
                    /\ (forall j, In j idx
                          <-> exists Vj, nth_error weights_04_06 j = Some Vj
                                /\ Forall2 Qeq (a (snd Vj)) (a (snd Vi)))
                    /\ np_take weights_04_06 idx = Ok (class_members weights_04_06 Vi)
                    /\ (forall W, In W (class_members weights_04_06 Vi)
                          <-> In W weights_04_06 /\ Forall2 Qeq (a (snd W)) (a (snd Vi)))
                    /\ class_phase_function (class_members weights_04_06 Vi) Vd)
         (equal_a list_set_nodup weights_04_06) (dummylegexpansion vc)
    /\ legcoefs (Vcomb_attrs vc) = Num 0
    /\ forall t_0 t_ex p_0 p_ex g, valid_geometry g = true ->
         exists es,
           Forall2 (fun Vd e => @legexpansion scat_angle_spec Vd t_0 t_ex p_0 p_ex g = Ok e)
             (dummylegexpansion vc) es
           /\ @Vcomb_legexpansion scat_angle_spec vc t_0 t_ex p_0 p_ex g
              = Ok (np_sum_expr es)
           /\ forall rho, eval rho (np_sum_expr es)
                          = fold_right Rplus 0%R (map (eval rho) es).
Proof.
  apply (@Vcombiner_sums_class_expansions scat_angle_spec list_set_nodup
           list_set_nodup_perm None None weights_04_06); reflexivity.
Defined.

(** ** Further properties of [Volume.legexpansion] *)

Section LegexpansionErrors.
Context {SA : ScatAngle}.

Lemma angle_slot_cases (g : string) (i : nat) (name : string) (value : expr)
    (msg : string) :
  angle_slot g i name value msg
  = match String.get i g with
    | None => Raise IndexError
    | Some c =>
        if Ascii.eqb c "v" then Ok (Symbol name)
        else if Ascii.eqb c "f" then Ok value
        else Raise (AssertionError msg)
    end.
Proof.
  unfold angle_slot, geometry_at. destruct (String.get i g) as [c |]; cbn [bind];
    [| reflexivity].
  destruct (Ascii.eqb c "v"); reflexivity.
Qed.

Lemma angle_slot_is_ok (g : string) (i : nat) (name : string) (value : expr)
    (msg : string) :
  is_ok (angle_slot g i name value msg)
  = match String.get i g with
    | None => false
    | Some c => fixed_or_variable c
    end.
Proof.
  rewrite angle_slot_cases. destruct (String.get i g) as [c |]; [| reflexivity].
  unfold fixed_or_variable. destruct (Ascii.eqb c "v"); [reflexivity |].
  destruct (Ascii.eqb c "f"); reflexivity.
Qed.

Lemma legexpansion_angles_is_ok (t_0 t_ex p_0 p_ex : expr) (g : string) :
  is_ok (legexpansion_angles t_0 t_ex p_0 p_ex g) = valid_geometry g.
Proof.
  unfold legexpansion_angles, valid_geometry.
  destruct (String.eqb g "mono"); [reflexivity |]. cbn [orb].
  rewrite !angle_slot_cases. unfold fixed_or_variable.
  destruct g as [| c0 [| c1 [| c2 [| c3 rest]]]]; cbn [String.get];
    try destruct (Ascii.eqb c0 "v"); try destruct (Ascii.eqb c0 "f");
    try destruct (Ascii.eqb c1 "v"); try destruct (Ascii.eqb c1 "f");
    try destruct (Ascii.eqb c2 "v"); try destruct (Ascii.eqb c2 "f");
    try destruct (Ascii.eqb c3 "v"); try destruct (Ascii.eqb c3 "f");
    reflexivity.
Qed.

(** X1: [legexpansion] returns exactly when [ncoefs] is set and positive and
    the geometry is ['mono'] or begins with four characters from f, v. *)
Theorem legexpansion_returns_iff (self : Volume) (t_0 t_ex p_0 p_ex : expr)
    (g : string) :
  is_ok (legexpansion self t_0 t_ex p_0 p_ex g) = true
  <-> (exists nc, ncoefs self = Some nc /\ (0 < nc)%Z) /\ valid_geometry g = true.
Proof.
  rewrite <- (legexpansion_angles_is_ok t_0 t_ex p_0 p_ex g).
  unfold legexpansion, getattr_ncoefs, assert.
  destruct (ncoefs self) as [nc |]; cbn [bind is_ok].
  - destruct (Z.ltb_spec 0 nc); cbn [bind is_ok].
    + destruct (legexpansion_angles t_0 t_ex p_0 p_ex g); cbn [bind is_ok]; split.
      * intros _. split; [exists nc; auto | reflexivity].
      * reflexivity.
      * discriminate.
      * intros [_ Hg]. exact Hg.
    + split; [discriminate | intros [(k & E & Hk) _]]. injection E as <-. lia.
  - split; [discriminate | intros [(k & E & _) _]; discriminate].
Qed.

(** X2: whatever the geometry, the values passed for the exit angles do not
    change what [legexpansion] returns or raises. *)
Theorem legexpansion_never_uses_exit_values
    (self : Volume) (t_0 p_0 t_ex p_ex t_ex' p_ex' : expr) (g : string) :
  legexpansion self t_0 t_ex p_0 p_ex g = legexpansion self t_0 t_ex' p_0 p_ex' g.
Proof.
  unfold legexpansion. destruct (getattr_ncoefs self) as [nc |]; cbn [bind]; [| reflexivity].
  destruct (assert (0 <? nc)%Z ""); cbn [bind]; [| reflexivity].
  unfold legexpansion_angles. destruct (String.eqb g "mono"); [reflexivity |].
  rewrite !angle_slot_cases.
  destruct (String.get 0 g) as [c0 |]; [| reflexivity].
  destruct (String.get 1 g) as [c1 |], (String.get 2 g) as [c2 |],
    (String.get 3 g) as [c3 |];
    destruct (Ascii.eqb c0 "v"), (Ascii.eqb c0 "f");
    try destruct (Ascii.eqb c1 "v"); try destruct (Ascii.eqb c1 "f");
    try destruct (Ascii.eqb c2 "v"); try destruct (Ascii.eqb c2 "f");
    try destruct (Ascii.eqb c3 "v"); try destruct (Ascii.eqb c3 "f");
    reflexivity.
Qed.

(** X3: for an admissible geometry other than ['mono'], the incidence zenith
    of the expansion is the symbol theta_0 when the first character is ['v']
    and the supplied value otherwise; likewise the incidence azimuth with the
    third character. *)
Theorem legexpansion_fixed_or_variable
    (self : Volume) (nc : Z) (t_0 t_ex p_0 p_ex : expr) (c0 c1 c2 c3 : ascii)
    (rest : string) :
  ncoefs self = Some nc -> (0 < nc)%Z ->
  valid_geometry (String c0 (String c1 (String c2 (String c3 rest)))) = true ->
  String.eqb (String c0 (String c1 (String c2 (String c3 rest)))) "mono" = false ->
  legexpansion self t_0 t_ex p_0 p_ex (String c0 (String c1 (String c2 (String c3 rest))))
  = Ok (Sum (Mul (legcoefs self)
                 (legendre (Symbol "n")
                    (scat_angle
                       (Sub Pi (if Ascii.eqb c0 "v" then Symbol "theta_0" else t_0))
                       (Symbol "theta_s")
                       (if Ascii.eqb c2 "v" then Symbol "phi_0" else p_0)
                       (Symbol "phi_s") (a self))))
            "n" 0 (nc - 1)).
Proof.
  intros Hnc Hpos Hg Hmono. unfold valid_geometry in Hg. rewrite Hmono in Hg.
  cbn [orb] in Hg.
  apply andb_prop in Hg as [Hg H3]. apply andb_prop in Hg as [Hg H2].
  apply andb_prop in Hg as [H0 H1].
  apply (legexpansion_unfold self nc t_0 t_ex p_0 p_ex _
           (mkAngles (if Ascii.eqb c0 "v" then Symbol "theta_0" else t_0)
                     (if Ascii.eqb c1 "v" then Symbol "theta_ex" else t_ex)
                     (if Ascii.eqb c2 "v" then Symbol "phi_0" else p_0)
                     (if Ascii.eqb c3 "v" then Symbol "phi_ex" else p_ex)) Hnc Hpos).
  unfold legexpansion_angles. rewrite Hmono.
  rewrite (angle_slot_valid _ 0 _ _ _ c0) by (reflexivity || assumption). cbn [bind].
  rewrite (angle_slot_valid _ 1 _ _ _ c1) by (reflexivity || assumption). cbn [bind].
  rewrite (angle_slot_valid _ 2 _ _ _ c2) by (reflexivity || assumption). cbn [bind].
  rewrite (angle_slot_valid _ 3 _ _ _ c3) by (reflexivity || assumption). cbn [bind].
  reflexivity.
Qed.

Lemma get_app_left (g suffix : string) (i : nat) :
  (i < String.length g)%nat -> String.get i (g ++ suffix) = String.get i g.
Proof.
  revert i. induction g as [| c g IH]; intros i H; cbn in *; [lia |].
  destruct i; [reflexivity |]. apply IH. lia.
Qed.

(** X4: only the first four characters of the geometry are read: characters
    appended to a string of four or more change nothing. *)
Theorem legexpansion_reads_four_characters
    (self : Volume) (t_0 t_ex p_0 p_ex : expr) (g suffix : string) :
  (4 <= String.length g)%nat -> String.eqb g "mono" = false ->
  legexpansion self t_0 t_ex p_0 p_ex (g ++ suffix)
  = legexpansion self t_0 t_ex p_0 p_ex g.
Proof.
  intros Hlen Hmono.
  assert (Hmono' : String.eqb (g ++ suffix) "mono" = false).
  { destruct g as [| c0 [| c1 [| c2 [| c3 rest]]]]; cbn in Hlen; try lia.
    destruct rest as [| c4 rest].
    - destruct suffix; [now rewrite append_nil_r || exact Hmono |].
      cbn [append]. apply String.eqb_neq. intros E. injection E. discriminate.
    - cbn [append]. apply String.eqb_neq. intros E. injection E. discriminate. }
  unfold legexpansion, legexpansion_angles. rewrite Hmono, Hmono'.
  rewrite !angle_slot_cases. rewrite !get_app_left by lia. reflexivity.
Qed.

(** X5: a geometry other than ['mono'] whose first [i] characters are f or v
    and whose next character, among the first four, is neither raises the
    [AssertionError] of that position. *)
Theorem legexpansion_wrong_character
    (self : Volume) (nc : Z) (t_0 t_ex p_0 p_ex : expr) (g : string)
    (i : nat) (c : ascii) :
  ncoefs self = Some nc -> (0 < nc)%Z ->
  String.eqb g "mono" = false ->
  (i < 4)%nat ->
  all_fixed_or_variable (substring 0 i g) = true ->
  String.get i g = Some c -> fixed_or_variable c = false ->
  legexpansion self t_0 t_ex p_0 p_ex g
  = Raise (AssertionError (nth i geometry_messages ""%string)).
Proof.
  intros Hnc Hpos Hmono Hi Hprefix Hget Hc.
  unfold legexpansion, getattr_ncoefs, assert. rewrite Hnc. cbn [bind].
  destruct (Z.ltb_spec 0 nc); [| lia]. cbn [bind].
  unfold legexpansion_angles. rewrite Hmono. rewrite !angle_slot_cases.
  unfold fixed_or_variable in Hc. apply orb_false_elim in Hc as [Hv Hf].
  destruct g as [| c0 [| c1 [| c2 [| c3 rest]]]];
    destruct i as [| [| [| [| i]]]]; try lia;
    cbn in Hget; try discriminate Hget; injection Hget as ->;
    cbn [substring all_fixed_or_variable] in Hprefix;
    unfold fixed_or_variable in Hprefix; cbn [String.get]; rewrite Hv, Hf;
    try destruct (Ascii.eqb c0 "v"); try destruct (Ascii.eqb c0 "f");
    try destruct (Ascii.eqb c1 "v"); try destruct (Ascii.eqb c1 "f");
    try destruct (Ascii.eqb c2 "v"); try destruct (Ascii.eqb c2 "f");
    cbn in Hprefix; try discriminate Hprefix; reflexivity.
Qed.

(** X6: a geometry of fewer than four characters, all of them f or v, raises
    [IndexError]. *)
Theorem legexpansion_short_geometry
    (self : Volume) (nc : Z) (t_0 t_ex p_0 p_ex : expr) (g : string) :
  ncoefs self = Some nc -> (0 < nc)%Z ->
  (String.length g < 4)%nat -> all_fixed_or_variable g = true ->
  legexpansion self t_0 t_ex p_0 p_ex g = Raise IndexError.
Proof.
  intros Hnc Hpos Hlen Hall.
  unfold legexpansion, getattr_ncoefs, assert. rewrite Hnc. cbn [bind].
  destruct (Z.ltb_spec 0 nc); [| lia]. cbn [bind].
  unfold legexpansion_angles.
  assert (Hmono : String.eqb g "mono" = false).
  { apply String.eqb_neq. intros ->. cbn in Hlen. lia. }
  rewrite Hmono, !angle_slot_cases.
  destruct g as [| c0 [| c1 [| c2 [| c3 rest]]]]; cbn in Hlen; try lia;
    cbn [all_fixed_or_variable] in Hall; cbn [String.get];
    repeat match type of Hall with
      | (_ && _)%bool = true => apply andb_prop in Hall as [?H Hall]
      end;
    unfold fixed_or_variable in *;
    repeat match goal with
      | H : (Ascii.eqb ?c "v" || Ascii.eqb ?c "f")%bool = true |- _ =>
          destruct (Ascii.eqb c "v"); cbn in H; [| rewrite H]; clear H
      end;
    reflexivity.
Qed.

End LegexpansionErrors.

(** ** Constructors and coefficients of the phase functions *)

Section PhaseFunctions.
Context {SA : ScatAngle}.
Local Open Scope R_scope.

Lemma all_floats_iff (xs : list number) :
  forallb type_is_float xs = true <-> exists qs, xs = map PyFloat qs.
Proof.
  induction xs as [| x xs IH]; cbn [forallb].
  - split; [intros _; now exists [] | reflexivity].
  - rewrite andb_true_iff, IH. split.
    + intros [Hx [qs ->]]. destruct x as [q | z]; [| discriminate].
      now exists (q :: qs).
    + intros [[| q qs] E]; [discriminate |]. cbn [map] in E. injection E as -> ->.
      split; [reflexivity | now exists qs].
Qed.

Lemma number_value_floats (qs : list Q) : map number_value (map PyFloat qs) = qs.
Proof.
  induction qs as [| q qs IH]; [reflexivity |]. cbn [map number_value]. now rewrite IH.
Qed.

(** X7: [HenyeyGreenstein] constructs exactly when [t] and [ncoefs] are
    given, [a] is a list of three floats and [ncoefs] is positive; the object
    then carries the [omega], [tau], [a] and [ncoefs] it was given.  With [t]
    and [ncoefs] given, a tuple is refused as not a list, and a list of three
    entries one of which is not a float is refused for that, whatever
    [ncoefs]. *)
Theorem HenyeyGreenstein_returns_iff
    (t : option Q) (nc : option Z) (a : sequence) (om ta : option Q) :
  (is_ok (HenyeyGreenstein t nc a om ta) = true
   <-> (exists t', t = Some t')
       /\ (exists k, nc = Some k /\ (0 < k)%Z)
       /\ exists qs, a = PyList (map PyFloat qs) /\ List.length qs = 3%nat)
  /\ (forall V, HenyeyGreenstein t nc a om ta = Ok V ->
        omega V = om /\ tau V = ta /\ a = PyList (map PyFloat (Volume.a V))
        /\ ncoefs V = nc)
  /\ (forall t' k xs,
        HenyeyGreenstein (Some t') (Some k) (PyTuple xs) om ta
        = Raise (AssertionError "Error: Generalization-parameter needs to be a list"))
  /\ (forall t' k xs, List.length xs = 3%nat -> forallb type_is_float xs = false ->
        HenyeyGreenstein (Some t') (Some k) (PyList xs) om ta
        = Raise (AssertionError
                   "Error: Generalization-parameter array must contain only floating-point values!")).
Proof.
  split; [| split; [| split]].
  - unfold HenyeyGreenstein, assert.
    destruct t as [t' |]; [| split; [discriminate | intros [[? E] _]; discriminate]].
    destruct nc as [k |];
      [| split; [discriminate | intros (_ & (? & E & _) & _); discriminate]].
    destruct a as [xs | xs]; cbn [isinstance_list items bind is_ok].
    2:{ split; [discriminate | intros (_ & _ & qs & E & _); discriminate]. }
    destruct (Nat.eqb_spec (List.length xs) 3) as [Hlen | Hlen]; cbn [bind is_ok].
    2:{ split; [discriminate | intros (_ & _ & qs & E & Hqs)].
        injection E as ->. rewrite length_map in Hlen. contradiction. }
    destruct (forallb type_is_float xs) eqn:Hfl; cbn [bind is_ok].
    2:{ split; [discriminate | intros (_ & _ & qs & E & _)]. injection E as ->.
        assert (forallb type_is_float (map PyFloat qs) = true)
          by (apply all_floats_iff; eauto).
        congruence. }
    apply all_floats_iff in Hfl as [qs ->]. rewrite length_map in Hlen.
    destruct (Z.ltb_spec 0 k); cbn [bind is_ok].
    + split; [intros _ | reflexivity]. repeat split; eauto.
    + split; [discriminate | intros (_ & (k' & E & Hk) & _)].
      injection E as <-. lia.
  - intros V. unfold HenyeyGreenstein, assert.
    destruct t as [t' |]; [| discriminate]. destruct nc as [k |]; [| discriminate].
    destruct a as [xs | xs]; cbn [isinstance_list items bind]; [| discriminate].
    destruct (List.length xs =? 3)%nat; cbn [bind]; [| discriminate].
    destruct (forallb type_is_float xs) eqn:Hfl; cbn [bind]; [| discriminate].
    destruct (0 <? k)%Z; cbn [bind]; [| discriminate].
    intros E. injection E as <-. cbn [omega tau Volume.a ncoefs].
    apply all_floats_iff in Hfl as [qs ->]. rewrite number_value_floats. auto.
  - reflexivity.
  - intros t' k xs Hlen Hfl. unfold HenyeyGreenstein, assert.
    cbn [isinstance_list items bind]. rewrite Hlen, Hfl. reflexivity.
Qed.

Lemma Q2R_integer (z : Z) : Q2R (z # 1) = IZR z.
Proof. unfold Q2R. cbn. lra. Qed.

Lemma Q2R_two_plus_square (t : Q) : Q2R (2 + t ^ 2) = 2 + Q2R t * Q2R t.
Proof.
  rewrite Q2R_plus. change (t ^ 2)%Q with (t * t)%Q. rewrite Q2R_mult.
  rewrite Q2R_integer. reflexivity.
Qed.

Lemma two_plus_square_neq_0 (x : R) : 2 + x * x <> 0.
Proof. nra. Qed.

(** The coefficient of a Henyey-Greenstein-Rayleigh function below the
    bound of its [Piecewise]. *)
Lemma HGRayleigh_get_legcoef_lower (self : HGRayleigh_obj) (t : Q) (n : Z) :
  HGRayleigh_legcoefs self = HGRayleigh_set_legcoefficients t -> (n < 2)%Z ->
  HGRayleigh_get_legcoef self n
  = 3 / (8 * PI) * 1 / (2 + Q2R t * Q2R t)
    * ((IZR n + 2) * (IZR n + 1) / (2 * IZR n + 3) * powerRZ (Q2R t) (n + 2)
       + (IZR n + 1) * (IZR n + 1) / (2 * IZR n + 3) * powerRZ (Q2R t) n
       + (5 * (IZR n * IZR n) - 1) / (2 * IZR n - 1) * powerRZ (Q2R t) n).
Proof.
  intros E Hn. unfold HGRayleigh_get_legcoef, piecewise_xreplace, evalf. rewrite E.
  cbn [HGRayleigh_set_legcoefficients bound lower upper].
  destruct (Qlt_le_dec (inject_Z n) 2) as [_ | Hle].
  2:{ exfalso. unfold Qle, inject_Z in Hle. cbn in Hle. lia. }
  cbv [xreplace String.eqb Ascii.eqb Bool.eqb eval]. unfold inject_Z.
  rewrite Q2R_two_plus_square, !Q2R_integer.
  rewrite <- !plus_IZR, !rpow_IZR. rewrite !plus_IZR.
  change (powerRZ (IZR n + 1) 2) with ((IZR n + 1) * ((IZR n + 1) * 1)).
  change (powerRZ (IZR n) 2) with (IZR n * (IZR n * 1)).
  assert (PI <> 0) by apply PI_neq0.
  pose proof (two_plus_square_neq_0 (Q2R t)).
  assert (2 * IZR n + 3 <> 0).
  { rewrite <- mult_IZR, <- plus_IZR. apply not_0_IZR. lia. }
  assert (2 * IZR n - 1 <> 0).
  { rewrite <- mult_IZR, <- minus_IZR. apply not_0_IZR. lia. }
  field. auto.
Qed.

(** The coefficient from the bound on. *)
Lemma HGRayleigh_get_legcoef_upper (self : HGRayleigh_obj) (t : Q) (n : Z) :
  HGRayleigh_legcoefs self = HGRayleigh_set_legcoefficients t -> (2 <= n)%Z ->
  HGRayleigh_get_legcoef self n
  = 3 / (8 * PI) * 1 / (2 + Q2R t * Q2R t)
    * (IZR n * (IZR n - 1) / (2 * IZR n - 1) * powerRZ (Q2R t) (n - 2)
       + (IZR n + 2) * (IZR n + 1) / (2 * IZR n + 3) * powerRZ (Q2R t) (n + 2)
       + (IZR n + 1) * (IZR n + 1) / (2 * IZR n + 3) * powerRZ (Q2R t) n
       + (5 * (IZR n * IZR n) - 1) / (2 * IZR n - 1) * powerRZ (Q2R t) n).
Proof.
  intros E Hn. unfold HGRayleigh_get_legcoef, piecewise_xreplace, evalf. rewrite E.
  cbn [HGRayleigh_set_legcoefficients bound lower upper].
  destruct (Qlt_le_dec (inject_Z n) 2) as [Hlt | _].
  { exfalso. unfold Qlt, inject_Z in Hlt. cbn in Hlt. lia. }
  cbv [xreplace String.eqb Ascii.eqb Bool.eqb eval]. unfold inject_Z.
  rewrite Q2R_two_plus_square, !Q2R_integer.
  rewrite <- !plus_IZR, <- !minus_IZR, !rpow_IZR. rewrite !plus_IZR, !minus_IZR.
  change (powerRZ (IZR n + 1) 2) with ((IZR n + 1) * ((IZR n + 1) * 1)).
  change (powerRZ (IZR n) 2) with (IZR n * (IZR n * 1)).
  assert (PI <> 0) by apply PI_neq0.
  pose proof (two_plus_square_neq_0 (Q2R t)).
  assert (2 * IZR n + 3 <> 0).
  { rewrite <- mult_IZR, <- plus_IZR. apply not_0_IZR. lia. }
  assert (2 * IZR n - 1 <> 0).
  { rewrite <- mult_IZR, <- minus_IZR. apply not_0_IZR. lia. }
  field. auto.
Qed.

Lemma HGRayleigh_ok (t : Q) (nc : Z) (a : sequence) (om ta : option Q)
    (W : HGRayleigh_obj) :
  HGRayleigh (Some t) (Some nc) a om ta = Ok W ->
  HGRayleigh_legcoefs W = HGRayleigh_set_legcoefficients t.
Proof.
  unfold HGRayleigh, assert.
  destruct (isinstance_list a); cbn [bind]; [| discriminate].
  destruct (List.length (items a) =? 3)%nat; cbn [bind]; [| discriminate].
  destruct (forallb type_is_float (items a)); cbn [bind]; [| discriminate].
  destruct (0 <? nc)%Z; cbn [bind]; [| discriminate].
  intros E. injection E as <-. reflexivity.
Qed.

(** X8: the zeroth Legendre coefficient is 1/(4 pi) for the Rayleigh
    function and, whatever the asymmetry parameter, for the
    Henyey-Greenstein and the Henyey-Greenstein-Rayleigh functions. *)
Theorem zeroth_coefficient_is_normalised
    (t : Q) (nc : Z) (a : sequence) (om ta : option Q)
    (V : Volume) (W : HGRayleigh_obj) :
  HenyeyGreenstein (Some t) (Some nc) a om ta = Ok V ->
  HGRayleigh (Some t) (Some nc) a om ta = Ok W ->
  _get_legcoef (Rayleigh om ta) 0 = 1 / (4 * PI)
  /\ _get_legcoef V 0 = 1 / (4 * PI)
  /\ HGRayleigh_get_legcoef W 0 = 1 / (4 * PI).
Proof.
  intros HV HW. apply HenyeyGreenstein_ok in HV as (EV & _). apply HGRayleigh_ok in HW.
  assert (HPI : PI <> 0) by apply PI_neq0.
  split; [| split].
  - rewrite Rayleigh_get_legcoef. cbn. field. assumption.
  - change 0%Z with (Z.of_nat 0). rewrite (HenyeyGreenstein_get_legcoef t V 0 EV).
    cbn. field. assumption.
  - rewrite (HGRayleigh_get_legcoef_lower W t 0 HW) by lia.
    pose proof (two_plus_square_neq_0 (Q2R t)).
    change (powerRZ (Q2R t) (0 + 2)) with (Q2R t * (Q2R t * 1)).
    change (powerRZ (Q2R t) 0) with 1.
    field. auto.
Qed.

Lemma powerRZ_0_pos (z : Z) : (0 < z)%Z -> powerRZ 0 z = 0.
Proof.
  destruct z as [| q | q]; try lia. intros _. cbn.
  apply pow_i. apply Pos2Nat.is_pos.
Qed.

(** X9: with asymmetry parameter 0 the Henyey-Greenstein-Rayleigh
    coefficients are those of the Rayleigh function at every n >= 0. *)
Theorem HGRayleigh_at_0_is_Rayleigh
    (nc : Z) (a : sequence) (om ta : option Q) (W : HGRayleigh_obj) (n : nat) :
  HGRayleigh (Some 0%Q) (Some nc) a om ta = Ok W ->
  HGRayleigh_get_legcoef W (Z.of_nat n) = _get_legcoef (Rayleigh om ta) (Z.of_nat n).
Proof.
  intros HW. apply HGRayleigh_ok in HW.
  assert (HPI : PI <> 0) by apply PI_neq0.
  rewrite Rayleigh_get_legcoef.
  destruct n as [| [| k]].
  - change (Z.of_nat 0) with 0%Z.
    rewrite (HGRayleigh_get_legcoef_lower W 0 0 HW) by lia.
    rewrite Q2R_0, (powerRZ_0_pos (0 + 2)), powerRZ_O by lia.
    cbn [Z.eqb Pos.eqb]. field. assumption.
  - change (Z.of_nat 1) with 1%Z.
    rewrite (HGRayleigh_get_legcoef_lower W 0 1 HW) by lia.
    rewrite Q2R_0, (powerRZ_0_pos (1 + 2)), (powerRZ_0_pos 1) by lia.
    cbn [Z.eqb Pos.eqb]. field. assumption.
  - rewrite (HGRayleigh_get_legcoef_upper W 0 _ HW) by lia.
    rewrite Q2R_0.
    rewrite (powerRZ_0_pos (Z.of_nat (S (S k)) + 2)) by lia.
    rewrite (powerRZ_0_pos (Z.of_nat (S (S k)))) by lia.
    replace (Z.of_nat (S (S k)) - 2)%Z with (Z.of_nat k) by lia.
    destruct (Z.eqb_spec 0 (Z.of_nat (S (S k)))) as [E0 | _]; [lia |].
    assert (H2n : 2 * IZR (Z.of_nat (S (S k))) - 1 <> 0).
    { rewrite <- mult_IZR, <- minus_IZR. apply not_0_IZR. lia. }
    destruct k as [| k].
    + change (Z.of_nat 0) with 0%Z. change (Z.of_nat 2) with 2%Z.
      rewrite powerRZ_O. cbn [Z.eqb Pos.eqb]. field. assumption.
    + rewrite (powerRZ_0_pos (Z.of_nat (S k))) by lia.
      destruct (Z.eqb_spec 2 (Z.of_nat (S (S (S k))))) as [E2 | _]; [lia |].
      rewrite !Rmult_0_r, !Rplus_0_r, !Rmult_0_r. reflexivity.
Qed.

Lemma eval_Rayleigh_legcoefs (rho : env) (om ta : option Q) :
  eval rho (legcoefs (Rayleigh om ta))
  = 3 / (16 * PI) * (4 / 3 * delta 0 (rho "n"%string) + 2 / 3 * delta 2 (rho "n"%string)).
Proof.
  cbn [Rayleigh legcoefs]. unfold Rayleigh_legcoefs. rewrite eval_expand.
  cbn [eval]. rewrite !Q2R_integer.
  replace (Q2R (4 / 3)) with (4 / 3) by (unfold Q2R; simpl; lra).
  replace (Q2R (2 / 3)) with (2 / 3) by (unfold Q2R; simpl; lra).
  reflexivity.
Qed.

(** X10: the three-term expansion of the Rayleigh function sums to the
    closed form 3/(16 pi) (1 + x^2) in the scattering-angle cosine x of the
    expansion, provided that cosine does not involve the summation index. *)
Theorem Rayleigh_expansion_is_closed_form
    (om ta : option Q) (t_0 t_ex p_0 p_ex : expr) (g : string) :
  valid_geometry g = true ->
  exists X,
    legexpansion (Rayleigh om ta) t_0 t_ex p_0 p_ex g
    = Ok (Sum (Mul (legcoefs (Rayleigh om ta)) (legendre (Symbol "n") X)) "n" 0 2)
    /\ forall rho,
         (forall k, eval (upd rho "n" (INR k)) X = eval rho X) ->
         eval rho (Sum (Mul (legcoefs (Rayleigh om ta)) (legendre (Symbol "n") X)) "n" 0 2)
         = 3 / (16 * PI) * (1 + eval rho X * eval rho X).
Proof.
  intros Hg.
  destruct (legexpansion_angles_valid t_0 t_ex p_0 p_ex g Hg) as (ang & Hang & _).
  eexists. split.
  - apply (legexpansion_unfold (Rayleigh om ta) 3 t_0 t_ex p_0 p_ex g ang);
      [reflexivity | lia | exact Hang].
  - intros rho HX. change 2%Z with (3 - 1)%Z.
    rewrite eval_legendre_series by lia.
    change (Z.to_nat (3 - 1)) with 2%nat. cbn [sum_f_R0].
    rewrite !HX, !eval_Rayleigh_legcoefs, !upd_same.
    change (INR 0) with (IZR 0). change (INR 1) with (IZR 1).
    replace (INR 2) with (IZR 2) by (cbn; lra).
    rewrite !delta_IZR. cbn [Z.eqb Pos.eqb].
    unfold LegendreP. cbn [legendre_pair fst]. change (INR 0) with 0.
    assert (HPI : PI <> 0) by apply PI_neq0.
    field. assumption.
Qed.

End PhaseFunctions.

(** ** Further properties of the scattering geometry *)

Section GeometryMore.
Local Open Scope R_scope.

Lemma sqrt_one_minus_square (x : R) :
  -1 <= x <= 1 -> 0 <= sqrt (1 - x * x) /\ sqrt (1 - x * x) * sqrt (1 - x * x) = 1 - x * x.
Proof.
  intros Hx. split; [apply sqrt_pos | apply sqrt_sqrt; nra].
Qed.

(** X11: for zenith cosines in [-1,1] the value of [cos_theta] is itself a
    cosine: it lies in [-1,1]. *)
Theorem cos_theta_is_a_cosine (mu_i mu_s phi_i phi_s : R) :
  -1 <= mu_i <= 1 -> -1 <= mu_s <= 1 ->
  -1 <= cos_theta mu_i mu_s phi_i phi_s <= 1.
Proof.
  intros Hi Hs. unfold cos_theta. rewrite !sin_arccos by assumption.
  destruct (sqrt_one_minus_square mu_i Hi) as [Hu Hu2].
  destruct (sqrt_one_minus_square mu_s Hs) as [Hv Hv2].
  pose proof (COS_bound (phi_i - phi_s)) as [Hc1 Hc2].
  set (u := sqrt (1 - mu_i * mu_i)) in *. set (v := sqrt (1 - mu_s * mu_s)) in *.
  set (c := cos (phi_i - phi_s)) in *.
  assert (Huv : 0 <= u * v) by (apply Rmult_le_pos; assumption).
  assert (H1 : mu_i * mu_s + u * v <= 1).
  { pose proof (Rle_0_sqr (mu_i - mu_s)). pose proof (Rle_0_sqr (u - v)).
    unfold Rsqr in *. nra. }
  assert (H2 : -1 <= mu_i * mu_s - u * v).
  { pose proof (Rle_0_sqr (mu_i + mu_s)). pose proof (Rle_0_sqr (u - v)).
    unfold Rsqr in *. nra. }
  assert (H3 : - (u * v) <= u * v * c <= u * v) by (split; nra).
  lra.
Qed.

(** X12: [cos_theta_prime] is [cos_theta] at the negated incidence cosine, so
    the argument [surface] passes to the BRDF, [cos_theta(-mu_0, mu_ex, 0,
    0)], is [cos_theta_prime(mu_0, mu_ex, 0, 0)]. *)
Theorem cos_theta_prime_is_cos_theta_negated (mu_i mu_s phi_i phi_s : R) :
  -1 <= mu_i <= 1 ->
  cos_theta_prime mu_i mu_s phi_i phi_s = cos_theta (- mu_i) mu_s phi_i phi_s.
Proof.
  intros Hi. unfold cos_theta, cos_theta_prime.
  rewrite (sin_arccos mu_i) by assumption. rewrite (sin_arccos (- mu_i)) by lra.
  replace (1 - - mu_i * - mu_i) with (1 - mu_i * mu_i) by ring. ring.
Qed.

(** X13: [cos_theta] is symmetric under exchanging the two directions; it is
    1 for twice the same direction and 2 mu^2 - 1 for the same zenith at
    opposite azimuth. *)
Theorem cos_theta_special_directions (mu mu' phi phi' : R) :
  -1 <= mu <= 1 ->
  cos_theta mu mu' phi phi' = cos_theta mu' mu phi' phi
  /\ cos_theta mu mu phi phi = 1
  /\ cos_theta mu mu phi (phi + PI) = 2 * mu * mu - 1.
Proof.
  intros Hmu. unfold cos_theta. rewrite !(sin_arccos mu) by assumption.
  destruct (sqrt_one_minus_square mu Hmu) as [_ Hu2].
  split; [| split].
  - replace (phi' - phi) with (- (phi - phi')) by ring. rewrite cos_neg. ring.
  - replace (phi - phi) with 0 by ring. rewrite cos_0. rewrite Rmult_1_r, Hu2. ring.
  - replace (phi - (phi + PI)) with (- PI) by ring. rewrite cos_neg, cos_PI.
    replace (sqrt (1 - mu * mu) * sqrt (1 - mu * mu) * -1)
      with (- (sqrt (1 - mu * mu) * sqrt (1 - mu * mu))) by ring.
    rewrite Hu2. ring.
Qed.

(** X14: [thetaBRDF] is worth cos(ti) cos(ts) + sin(ti) sin(ts) cos(pi - ps);
    [thetap] is worth [thetaBRDF] at the zenith pi - ti; and for zenith
    angles in [0, pi] the numeric [cos_theta] of their cosines is the value
    of [thetaBRDF]. *)
Theorem thetaBRDF_value (rho : env) (thetai thetas phii phis : expr) :
  0 <= eval rho thetai <= PI -> 0 <= eval rho thetas <= PI ->
  eval rho (thetaBRDF thetai thetas phii phis)
    = cos (eval rho thetai) * cos (eval rho thetas)
      + sin (eval rho thetai) * sin (eval rho thetas)
        * cos (eval rho phii - eval rho phis)
  /\ eval rho (thetap thetai thetas phii phis)
     = eval rho (thetaBRDF (Sub Pi thetai) thetas phii phis)
  /\ cos_theta (cos (eval rho thetai)) (cos (eval rho thetas))
       (eval rho phii) (eval rho phis)
     = eval rho (thetaBRDF thetai thetas phii phis).
Proof.
  intros Hi Hs. unfold thetaBRDF, thetap, cos_theta. cbn [eval].
  rewrite !acos_cos by assumption. rewrite cos_minus.
  replace (Q2R (- (1))) with (-1) by (unfold Q2R; simpl; lra).
  rewrite Rtrigo_facts.cos_pi_minus, Rtrigo_facts.sin_pi_minus.
  repeat split; ring.
Qed.

End GeometryMore.

Lemma cos_theta_is_a_cosine_witness :
  (-1 <= cos_theta (1 / 2) (-1) 0 PI <= 1)%R.
Proof.
  apply (cos_theta_is_a_cosine (1 / 2) (-1) 0 PI); lra.
Defined.

Lemma cos_theta_prime_is_cos_theta_negated_witness :
  cos_theta_prime (1 / 2) (3 / 4) 0 0 = cos_theta (- (1 / 2)) (3 / 4) 0 0.
Proof.
  apply (cos_theta_prime_is_cos_theta_negated (1 / 2) (3 / 4) 0 0). lra.
Defined.

Lemma cos_theta_special_directions_witness :
  cos_theta (1 / 2) (3 / 4) 0 1 = cos_theta (3 / 4) (1 / 2) 1 0
  /\ cos_theta (1 / 2) (1 / 2) 0 0 = 1%R
  /\ cos_theta (1 / 2) (1 / 2) 0 (0 + PI) = (2 * (1 / 2) * (1 / 2) - 1)%R.
Proof.
  apply (cos_theta_special_directions (1 / 2) (3 / 4) 0 1). lra.
Defined.

Lemma thetaBRDF_value_witness :
  eval (fun _ => 0%R) (thetaBRDF (Num 1) (Num 1) (Num 0) (Num 2))
    = (cos (Q2R 1) * cos (Q2R 1) + sin (Q2R 1) * sin (Q2R 1) * cos (Q2R 0 - Q2R 2))%R
  /\ eval (fun _ => 0%R) (thetap (Num 1) (Num 1) (Num 0) (Num 2))
     = eval (fun _ => 0%R) (thetaBRDF (Sub Pi (Num 1)) (Num 1) (Num 0) (Num 2))
  /\ cos_theta (cos (Q2R 1)) (cos (Q2R 1)) (Q2R 0) (Q2R 2)
     = eval (fun _ => 0%R) (thetaBRDF (Num 1) (Num 1) (Num 0) (Num 2)).
Proof.
  assert (H1 : (0 <= Q2R 1 <= PI)%R).
  { replace (Q2R 1) with 1%R by (unfold Q2R; simpl; lra).
    pose proof PI2_3_2. pose proof PI_RGT_0. unfold PI2 in *. lra. }
  apply (thetaBRDF_value (fun _ => 0%R) (Num 1) (Num 1) (Num 0) (Num 2)); exact H1.
Defined.

(** ** The remaining methods of [RT1] *)

Section Model.
Local Open Scope R_scope.

(** X15: an [RT1] object is constructed exactly when both the volume and the
    surface are supplied (the volume is checked first); it then stores its
    arguments, with [nmax] defaulting to 10. *)
Theorem RT1_init_requires_collaborators
    (i0 m0 mex : R) (rv : option Volume) (srf : option Surface)
    (nmax : option Z) (coefs : option Coefficients) :
  (is_ok (__init__ i0 m0 mex rv srf nmax coefs) = true
   <-> (exists v, rv = Some v) /\ (exists s, srf = Some s))
  /\ (rv = None ->
      __init__ i0 m0 mex rv srf nmax coefs
      = Raise (AssertionError "ERROR: needs to provide volume information"))
  /\ forall self, __init__ i0 m0 mex rv srf nmax coefs = Ok self ->
       I0 self = i0 /\ mu_0 self = m0 /\ mu_ex self = mex
       /\ rv = Some (RV self) /\ srf = Some (SRF self) /\ Fn self = coefs
       /\ _nmax self = match nmax with Some k => k | None => 10%Z end.
Proof.
  unfold __init__. split; [| split].
  - destruct rv as [v |]; [| split; [discriminate | intros [[? E] _]; discriminate]].
    destruct srf as [s |]; [| split; [discriminate | intros [_ [? E]]; discriminate]].
    split; [intros _; eauto | reflexivity].
  - intros ->. reflexivity.
  - intros self. destruct rv as [v |]; [| discriminate].
    destruct srf as [s |]; [| discriminate].
    intros E. injection E as <-. cbn. auto 10.
Qed.

(** X16: [volume] raises [AttributeError] for every instance and whatever
    the module binds: it reads [self.omega], which an [RT1] object does not
    have. *)
Theorem volume_raises_AttributeError (globals : namespace) (self : RT1) :
  volume globals self = Raise (AttributeError "omega").
Proof. reflexivity. Qed.

(** X17: [interaction] never returns a value, whatever the module binds:
    either a call of [_calc_Fint] raises, or its result [None] cannot be
    multiplied. *)
Theorem interaction_never_returns (globals : namespace) (self : RT1) :
  is_ok (interaction globals self) = false.
Proof.
  unfold interaction.
  pose proof (calc_Fint_never_a_float globals self (mu_0 self) (mu_ex self)) as H1.
  pose proof (calc_Fint_never_a_float globals self (mu_ex self) (mu_0 self)) as H2.
  destruct (_calc_Fint globals self (mu_0 self) (mu_ex self)) as [v1 | e];
    cbn [bind is_ok]; [| reflexivity].
  destruct (_calc_Fint globals self (mu_ex self) (mu_0 self)) as [v2 | e];
    cbn [bind is_ok]; [| reflexivity].
  subst v1 v2.
  destruct (RV_omega self); cbn [bind is_ok]; [| reflexivity].
  destruct (RV_tau self); cbn [bind is_ok]; reflexivity.
Qed.

(** X18: [calc] never returns the four intensities, whatever the module
    binds; with the names the module's script binds it stops in [surface]
    with [AttributeError] on [tau], before the volume and interaction terms
    are tried. *)
Theorem calc_never_returns (globals : namespace) (self : RT1) :
  is_ok (calc globals self) = false
  /\ calc rt1_globals self = Raise (AttributeError "tau").
Proof.
  split; [| reflexivity].
  unfold calc. pose proof (surface_never_returns globals self) as H.
  destruct (surface globals self); [discriminate | reflexivity].
Qed.

End Model.

(** ** Further properties of the linear combination *)

Section CombinerMore.
Context {SA : ScatAngle}.
Local Open Scope R_scope.

Lemma max_ncoefs_spec (l : list Vchoice) (ncs : list Z) (m : Z) :
  mapM (fun V => getattr_ncoefs (snd V)) l = Ok ncs -> pymax ncs = Ok m ->
  (exists W, In W l /\ ncoefs (snd W) = Some m)
  /\ forall W k, In W l -> ncoefs (snd W) = Some k -> (k <= m)%Z.
Proof.
  intros Hncs Hm. apply getattr_ncoefs_Forall2 in Hncs.
  apply pymax_spec in Hm as [Hin Hmax]. split.
  - clear Hmax. induction Hncs as [| W k l ncs' HW _ IH]; [destruct Hin |].
    destruct Hin as [-> | Hin].
    + exists W. split; [now left | assumption].
    + destruct (IH Hin) as (W' & HW' & E). exists W'. split; [now right | assumption].
  - intros W k HW Hk. apply Hmax. clear Hmax Hin.
    induction Hncs as [| W' k' l ncs' HW' _ IH]; [destruct HW |].
    destruct HW as [-> | HW]; [left; congruence | right; now apply IH].
Qed.

(** The loop [for V in self.Vchoices] that accumulates [Vcomb._func]. *)
Lemma fold_set_func_attrs (l : list Vchoice) (V0 : Volume) :
  let Vc := fold_left
              (fun Vcomb V =>
                 set_func Vcomb (Add (_func Vcomb) (Mul (_func (snd V)) (Num (fst V)))))
              l V0 in
  omega Vc = omega V0 /\ tau Vc = tau V0 /\ ncoefs Vc = ncoefs V0
  /\ forall rho, eval rho (_func Vc)
                 = eval rho (_func V0) + weighted_sum (fun V => eval rho (_func V)) l.
Proof.
  revert V0. induction l as [| V l IH]; intros V0; cbn [fold_left weighted_sum].
  - repeat split. intros rho. ring.
  - destruct (IH (set_func V0 (Add (_func V0) (Mul (_func (snd V)) (Num (fst V))))))
      as (Ho & Ht & Hn & Hf).
    repeat split; try assumption.
    intros rho. rewrite Hf. cbn [set_func _func eval]. ring.
Qed.

Section SetOrderMore.
Variable list_set : list (list nat) -> list (list nat).
Hypothesis list_set_perm :
  forall rows, Permutation (list_set rows) (nodup index_eq_dec rows).

Lemma Vcombiner_attrs (ta om : option Q) (Vchoices : list Vchoice) (vc : Vcomb) :
  _Vcombiner list_set ta om Vchoices = Ok vc ->
  exists ncs m,
    mapM (fun V => getattr_ncoefs (snd V)) Vchoices = Ok ncs
    /\ pymax ncs = Ok m
    /\ Vcomb_attrs vc
       = fold_left
           (fun Vcomb V =>
              set_func Vcomb (Add (_func Vcomb) (Mul (_func (snd V)) (Num (fst V)))))
           Vchoices (set_ncoefs (Phasefunction om ta) m).
Proof.
  unfold _Vcombiner. intros H.
  destruct (assert_almost_equal _ _ _); cbn [bind] in H; [| discriminate].
  destruct (mapM (fun V => getattr_ncoefs (snd V)) Vchoices) as [ncs |] eqn:Encs;
    cbn [bind] in H; [| discriminate].
  destruct (pymax ncs) as [m |] eqn:Em; cbn [bind] in H; [| discriminate].
  destruct (foldM _ _ _) as [ds |]; cbn [bind] in H; [| discriminate].
  injection H as <-. exists ncs, m. auto.
Qed.

(** X19: the combination takes [omega] and [tau] from its own arguments and
    [ncoefs] as the largest of all its components; its phase function [p] is
    at every set of angles the weighted sum of the components'. *)
Theorem LinCombV_phase_function_is_weighted_sum
    (om ta : option Q) (Vchoices : list Vchoice) :
  forallb has_ncoefs Vchoices = true ->
  (Qabs (1 - np_sum (map fst Vchoices)) < 15 # 100000000)%Q ->
  exists obj,
    LinCombV list_set Vchoices om ta = Ok obj
    /\ LinCombV_omega obj = om /\ LinCombV_tau obj = ta
    /\ (exists W, In W Vchoices /\ ncoefs (snd W) = Some (LinCombV_ncoefs obj))
    /\ (forall W k, In W Vchoices -> ncoefs (snd W) = Some k ->
          (k <= LinCombV_ncoefs obj)%Z)
    /\ forall t_0 t_ex p_0 p_ex,
         LinCombV_p obj t_0 t_ex p_0 p_ex
         = weighted_sum (fun V => p V t_0 t_ex p_0 p_ex) Vchoices.
Proof.
  intros Hall Hsum.
  destruct (Vcombiner_total list_set list_set_perm ta om Vchoices Hall Hsum)
    as (attrs & ds & _ & _ & _ & Hcomb).
  destruct (Vcombiner_attrs ta om Vchoices _ Hcomb) as (ncs & m & Hncs & Hm & Hattrs).
  cbn [Vcomb_attrs] in Hattrs.
  destruct (fold_set_func_attrs Vchoices (set_ncoefs (Phasefunction om ta) m))
    as (_ & _ & Hn & Hf).
  rewrite <- Hattrs in Hn, Hf. cbn [set_ncoefs ncoefs] in Hn.
  destruct (max_ncoefs_spec Vchoices ncs m Hncs Hm) as [Hex Hmax].
  unfold LinCombV. rewrite Hcomb. cbn [bind Vcomb_attrs].
  unfold getattr_ncoefs. rewrite Hn. cbn [bind].
  eexists. split; [reflexivity |]. cbn.
  repeat split; try assumption.
  intros t_0 t_ex p_0 p_ex. unfold LinCombV_p. cbn [LinCombV_func].
  rewrite Hf. cbn [set_ncoefs Phasefunction _func eval]. rewrite Q2R_0.
  unfold p. ring.
Qed.

Lemma np_take_map {A B : Type} (f : A -> B) (l : list A) (idx : list nat) :
  np_take (map f l) idx = (ms <- np_take l idx ;; Ok (map f ms)).
Proof.
  unfold np_take. induction idx as [| i idx IH]; [reflexivity |].
  cbn [mapM]. rewrite nth_error_map.
  destruct (nth_error l i); cbn [option_map bind]; [| reflexivity].
  rewrite IH. clear IH. destruct (mapM _ idx); reflexivity.
Qed.

Lemma foldM_ext {A S : Type} (f g : S -> A -> py S) (l : list A) (s : S) :
  (forall s x, f s x = g s x) -> foldM f l s = foldM g l s.
Proof.
  intros H. revert s. induction l as [| x l IH]; intros s; [reflexivity |].
  cbn [foldM]. rewrite H. destruct (g s x); cbn [bind]; [apply IH | reflexivity].
Qed.

Section ComponentAttributes.
Variables om' ta' : Volume -> option Q.

Lemma getattr_ncoefs_with_tau_omega (l : list Vchoice) :
  mapM (fun V => getattr_ncoefs (snd V)) (map (with_tau_omega om' ta') l)
  = mapM (fun V => getattr_ncoefs (snd V)) l.
Proof.
  induction l as [| V l IH]; [reflexivity |]. cbn [map mapM]. now rewrite IH.
Qed.

Lemma fold_Vdummy_step_with_tau_omega (l : list Vchoice) (V0 : Volume) :
  fold_left Vdummy_step (map (with_tau_omega om' ta') l) V0
  = fold_left Vdummy_step l V0.
Proof.
  revert V0. induction l as [| V l IH]; intros V0; [reflexivity |].
  cbn [map fold_left]. now rewrite IH.
Qed.

Lemma equals_with_tau_omega (l : list Vchoice) :
  equals (map (with_tau_omega om' ta') l) = equals l.
Proof.
  unfold equals. rewrite map_map. apply map_ext. intros V.
  rewrite map_map. reflexivity.
Qed.

Lemma Vdummy_of_with_tau_omega (l : list Vchoice) (idx : list nat) :
  Vdummy_of (map (with_tau_omega om' ta') l) idx = Vdummy_of l idx.
Proof.
  unfold Vdummy_of. rewrite np_take_map.
  destruct (np_take l idx) as [ms |]; cbn [bind]; [| reflexivity].
  rewrite getattr_ncoefs_with_tau_omega.
  match goal with
  | |- context [mapM ?f ms] => destruct (mapM f ms) as [ncs |]
  end; cbn [bind]; [| reflexivity].
  destruct (pymax ncs) as [m |]; cbn [bind]; [| reflexivity].
  now rewrite fold_Vdummy_step_with_tau_omega.
Qed.

(** X20: the [omega] and [tau] attributes of the components have no effect:
    replacing them changes nothing in what [_Vcombiner] returns or raises,
    hence nothing in the [_func], the [ncoefs] and the [legexpansion] of the
    combination. *)
Theorem Vcombiner_ignores_component_tau_omega
    (ta om : option Q) (Vchoices : list Vchoice) :
  _Vcombiner list_set ta om (map (with_tau_omega om' ta') Vchoices)
    = _Vcombiner list_set ta om Vchoices
  /\ match LinCombV list_set (map (with_tau_omega om' ta') Vchoices) om ta,
           LinCombV list_set Vchoices om ta with
     | Ok o1, Ok o2 =>
         LinCombV_func o1 = LinCombV_func o2
         /\ LinCombV_ncoefs o1 = LinCombV_ncoefs o2
         /\ forall t_0 t_ex p_0 p_ex g,
              LinCombV_legexpansion o1 t_0 t_ex p_0 p_ex g
              = LinCombV_legexpansion o2 t_0 t_ex p_0 p_ex g
     | Raise e1, Raise e2 => e1 = e2
     | _, _ => False
     end.
Proof.
  assert (H : _Vcombiner list_set ta om (map (with_tau_omega om' ta') Vchoices)
              = _Vcombiner list_set ta om Vchoices).
  { unfold _Vcombiner, equal_a.
    rewrite map_map. cbn [with_tau_omega fst].
    rewrite getattr_ncoefs_with_tau_omega, equals_with_tau_omega.
    destruct (assert_almost_equal _ _ _); cbn [bind]; [| reflexivity].
    match goal with
    | |- context [mapM ?f Vchoices] => destruct (mapM f Vchoices)
    end; cbn [bind]; [| reflexivity].
    destruct (pymax _) as [m |]; cbn [bind]; [| reflexivity].
    rewrite (foldM_ext _ (fun dummylegexpansion idx =>
                            Vdummy <- Vdummy_of Vchoices idx ;;
                            Ok (dummylegexpansion ++ [Vdummy])))
      by (intros ds idx; now rewrite Vdummy_of_with_tau_omega).
    destruct (foldM _ _ _); cbn [bind]; [| reflexivity].
    do 2 f_equal. generalize (set_ncoefs (Phasefunction om ta) m).
    induction Vchoices as [| V l IH]; intros V0; [reflexivity |].
    cbn [map fold_left]. apply IH. }
  split; [exact H |].
  unfold LinCombV. rewrite H.
  destruct (_Vcombiner list_set ta om Vchoices) as [c |]; cbn [bind]; [| reflexivity].
  destruct (getattr_ncoefs (Vcomb_attrs c)); cbn [bind]; [| reflexivity].
  cbn. auto.
Qed.

End ComponentAttributes.

Lemma weighted_sum_ext (f g : Volume -> R) (l : list Vchoice) :
  (forall W, f W = g W) -> weighted_sum f l = weighted_sum g l.
Proof.
  intros H. induction l as [| V l IH]; [reflexivity |].
  cbn [weighted_sum]. now rewrite H, IH.
Qed.

Lemma sum_f_R0_weighted (F : Volume -> nat -> R) (g : nat -> R)
    (l : list Vchoice) (N : nat) :
  sum_f_R0 (fun k => weighted_sum (fun W => F W k) l * g k) N
  = weighted_sum (fun W => sum_f_R0 (fun k => F W k * g k) N) l.
Proof.
  induction l as [| V l IH]; cbn [weighted_sum].
  - induction N as [| N IHN]; cbn [sum_f_R0]; [ring | rewrite IHN; ring].
  - rewrite <- IH.
    rewrite (sum_eq _ (fun k => F (snd V) k * g k * Q2R (fst V)
                                + weighted_sum (fun W => F W k) l * g k))
      by (intros; ring).
    rewrite sum_plus, <- scal_sum. ring.
Qed.

(** X21: the expansion of an intermediate phase function is worth the
    weighted sum of the expansions of the members of its class, each taken
    up to the largest [ncoefs] of the class (a member with fewer terms is
    extended by its own coefficient formula, not padded with zeros). *)
Theorem class_expansion_is_weighted_sum
    (Vchoices : list Vchoice) (V : Vchoice) (t_0 t_ex p_0 p_ex : expr) (g : string) :
  forallb valid_component Vchoices = true -> In V Vchoices ->
  valid_geometry g = true ->
  exists Vd X m,
    Vdummy_of Vchoices (np_where (map (same_a V) Vchoices)) = Ok Vd
    /\ ncoefs Vd = Some m
    /\ (forall W k, In W (filter (same_a V) Vchoices) ->
          ncoefs (snd W) = Some k -> (k <= m)%Z)
    /\ legexpansion Vd t_0 t_ex p_0 p_ex g
       = Ok (Sum (Mul (legcoefs Vd) (legendre (Symbol "n") X)) "n" 0 (m - 1))
    /\ forall rho,
         eval rho (Sum (Mul (legcoefs Vd) (legendre (Symbol "n") X)) "n" 0 (m - 1))
         = weighted_sum
             (fun W => eval rho (Sum (Mul (legcoefs W) (legendre (Symbol "n") X))
                                   "n" 0 (m - 1)))
             (filter (same_a V) Vchoices).
Proof.
  intros Hvalid HV Hg.
  destruct (Vdummy_of_ok Vchoices (np_where (map (same_a V) Vchoices))) as [Vd HVd].
  { now apply valid_component_has_ncoefs. }
  { apply equals_In. eauto. }
  destruct (Vdummy_of_class Vchoices V Vd HV HVd) as [_ Hclass].
  destruct (class_phase_function_positive Vchoices V Vd Hvalid Hclass) as (m & Hm & Hpos).
  destruct Hclass as ((m' & Hm' & _ & Hmax) & Hleg & _).
  assert (m' = m) by congruence. subst m'.
  destruct (legexpansion_angles_valid t_0 t_ex p_0 p_ex g Hg) as (ang & Hang & _).
  exists Vd. eexists. exists m.
  split; [exact HVd |]. split; [exact Hm |]. split; [exact Hmax |].
  split; [exact (legexpansion_unfold Vd m t_0 t_ex p_0 p_ex g ang Hm Hpos Hang) |].
  intros rho. rewrite eval_legendre_series by assumption.
  rewrite (sum_eq _ (fun k =>
             weighted_sum (fun W => eval (upd rho "n" (INR k)) (legcoefs W))
               (filter (same_a V) Vchoices)
             * LegendreP k (eval (upd rho "n" (INR k))
                              (scat_angle (Sub Pi (theta_0 ang)) (Symbol "theta_s")
                                 (phi_0 ang) (Symbol "phi_s") (a Vd)))))
    by (intros k _; now rewrite Hleg).
  rewrite (sum_f_R0_weighted
             (fun W k => eval (upd rho "n" (INR k)) (legcoefs W))).
  apply weighted_sum_ext. intros W. now rewrite eval_legendre_series.
Qed.

(** X22: the combination of a single component with weight 1 is that
    component again: same [ncoefs], same value of the phase function and same
    value of the Legendre expansion. *)
Theorem LinCombV_of_one_component
    (om ta : option Q) (V : Volume) (nc : Z) (t_0 t_ex p_0 p_ex : expr) (g : string) :
  ncoefs V = Some nc -> (0 < nc)%Z -> valid_geometry g = true ->
  exists obj e e',
    LinCombV list_set [(1%Q, V)] om ta = Ok obj
    /\ LinCombV_ncoefs obj = nc
    /\ (forall x_0 x_ex y_0 y_ex,
          LinCombV_p obj x_0 x_ex y_0 y_ex = p V x_0 x_ex y_0 y_ex)
    /\ LinCombV_legexpansion obj t_0 t_ex p_0 p_ex g = Ok e
    /\ legexpansion V t_0 t_ex p_0 p_ex g = Ok e'
    /\ forall rho, eval rho e = eval rho e'.
Proof.
  intros Hnc Hpos Hg.
  assert (Hrows : equal_a list_set [(1%Q, V)] = [[0%nat]]).
  { unfold equal_a, equals. cbn [map snd]. rewrite a_eqb_refl. cbn [np_where where_from].
    apply Permutation_length_1_inv, Permutation_sym.
    exact (list_set_perm [[0%nat]]). }
  assert (Hcomb : _Vcombiner list_set ta om [(1%Q, V)]
                  = Ok (mkVcomb
                          (set_func (set_ncoefs (Phasefunction om ta) nc)
                             (Add (Num 0) (Mul (_func V) (Num 1))))
                          [Vdummy_step (set_ncoefs (Phasefunction None None) nc) (1%Q, V)])).
  { unfold _Vcombiner. rewrite Hrows.
    rewrite assert_almost_equal_ok by reflexivity.
    cbn [bind map mapM snd fst]. unfold getattr_ncoefs at 1. rewrite Hnc.
    cbn [bind pymax fold_left foldM].
    unfold Vdummy_of, np_take. cbn [mapM nth_error bind snd].
    unfold getattr_ncoefs. rewrite Hnc. cbn [bind pymax fold_left app].
    reflexivity. }
  destruct (legexpansion_angles_valid t_0 t_ex p_0 p_ex g Hg) as (ang & Hang & _).
  unfold LinCombV. rewrite Hcomb. cbn [bind Vcomb_attrs].
  unfold getattr_ncoefs at 1. cbn [set_func set_ncoefs ncoefs bind].
  pose proof (legexpansion_unfold
                (Vdummy_step (set_ncoefs (Phasefunction None None) nc) (1%Q, V)) nc
                t_0 t_ex p_0 p_ex g ang eq_refl Hpos Hang) as Hd.
  eexists. eexists. eexists.
  split; [reflexivity |]. cbn [LinCombV_ncoefs LinCombV_legexpansion].
  split; [reflexivity |]. split; [| split; [| split]].
  - intros x_0 x_ex y_0 y_ex. unfold LinCombV_p, p. cbn [LinCombV_func set_func _func eval fst snd].
    rewrite Q2R_0. replace (Q2R 1) with 1 by (unfold Q2R; simpl; lra). ring.
  - unfold Vcomb_legexpansion. cbn [dummylegexpansion mapM].
    rewrite Hd. cbn [bind np_sum_expr fold_left]. reflexivity.
  - exact (legexpansion_unfold V nc t_0 t_ex p_0 p_ex g ang Hnc Hpos Hang).
  - intros rho. rewrite !eval_legendre_series by assumption.
    apply sum_eq. intros k _. cbn [Vdummy_step set_ncoefs Phasefunction legcoefs a snd fst eval].
    rewrite Q2R_0. replace (Q2R 1) with 1 by (unfold Q2R; simpl; lra). ring.
Qed.

End SetOrderMore.
End CombinerMore.

(** ** Instances *)

Lemma legexpansion_fixed_or_variable_witness :
  @legexpansion scat_angle_spec rayleigh
     (Num (3 # 10)) (Num (4 # 10)) (Num (1 # 10)) (Num (2 # 10)) "fvvf"
  = Ok (Sum (Mul (legcoefs rayleigh)
               (legendre (Symbol "n")
                  (scat_angle_spec
                     (Sub Pi (if Ascii.eqb "f" "v" then Symbol "theta_0" else Num (3 # 10)))
                     (Symbol "theta_s")
                     (if Ascii.eqb "v" "v" then Symbol "phi_0" else Num (1 # 10))
                     (Symbol "phi_s") (a rayleigh))))
          "n" 0 (3 - 1)).
Proof.
  apply (@legexpansion_fixed_or_variable scat_angle_spec rayleigh 3
           (Num (3 # 10)) (Num (4 # 10)) (Num (1 # 10)) (Num (2 # 10))
           "f" "v" "v" "f" ""); [reflexivity | lia | reflexivity | reflexivity].
Defined.

Lemma legexpansion_reads_four_characters_witness :
  @legexpansion scat_angle_spec rayleigh
     (Num (3 # 10)) (Num (4 # 10)) (Num (1 # 10)) (Num (2 # 10)) ("fvvf" ++ "xyz")
  = @legexpansion scat_angle_spec rayleigh
      (Num (3 # 10)) (Num (4 # 10)) (Num (1 # 10)) (Num (2 # 10)) "fvvf".
Proof.
  apply (@legexpansion_reads_four_characters scat_angle_spec rayleigh
           (Num (3 # 10)) (Num (4 # 10)) (Num (1 # 10)) (Num (2 # 10)) "fvvf" "xyz");
    [cbn; lia | reflexivity].
Defined.

Lemma legexpansion_wrong_character_witness :
  @legexpansion scat_angle_spec rayleigh
     (Num (3 # 10)) (Num (4 # 10)) (Num (1 # 10)) (Num (2 # 10)) "fvxf"
  = Raise (AssertionError (nth 2 geometry_messages ""%string)).
Proof.
  apply (@legexpansion_wrong_character scat_angle_spec rayleigh 3
           (Num (3 # 10)) (Num (4 # 10)) (Num (1 # 10)) (Num (2 # 10)) "fvxf" 2 "x");
    [reflexivity | lia | reflexivity | lia | reflexivity | reflexivity | reflexivity].
Defined.

Lemma legexpansion_short_geometry_witness :
  @legexpansion scat_angle_spec rayleigh
     (Num (3 # 10)) (Num (4 # 10)) (Num (1 # 10)) (Num (2 # 10)) "fv"
  = Raise IndexError.
Proof.
  apply (@legexpansion_short_geometry scat_angle_spec rayleigh 3
           (Num (3 # 10)) (Num (4 # 10)) (Num (1 # 10)) (Num (2 # 10)) "fv");
    [reflexivity | lia | cbn; lia | reflexivity].
Defined.

Lemma zeroth_coefficient_is_normalised_witness :
  (_get_legcoef (@Rayleigh scat_angle_spec None None) 0 = 1 / (4 * PI))%R
  /\ (_get_legcoef henyey_greenstein 0 = 1 / (4 * PI))%R
  /\ (HGRayleigh_get_legcoef hg_rayleigh 0 = 1 / (4 * PI))%R.
Proof.
  apply (@zeroth_coefficient_is_normalised scat_angle_spec
           (1 # 2) 5 (PyList [PyFloat 1; PyFloat 1; PyFloat 1]) None None
           henyey_greenstein hg_rayleigh);
    reflexivity.
Defined.

Lemma HGRayleigh_at_0_is_Rayleigh_witness :
  HGRayleigh_get_legcoef hg_rayleigh_0 (Z.of_nat 2)
  = _get_legcoef (@Rayleigh scat_angle_spec None None) (Z.of_nat 2).
Proof.
  apply (@HGRayleigh_at_0_is_Rayleigh scat_angle_spec 5
           (PyList [PyFloat 1; PyFloat 1; PyFloat 1]) None None hg_rayleigh_0 2).
  reflexivity.
Defined.

Lemma Rayleigh_expansion_is_closed_form_witness :
  exists X,
    @legexpansion scat_angle_spec (@Rayleigh scat_angle_spec None None)
       (Num (3 # 10)) (Num (4 # 10)) (Num (1 # 10)) (Num (2 # 10)) "mono"
    = Ok (Sum (Mul (legcoefs (@Rayleigh scat_angle_spec None None))
                 (legendre (Symbol "n") X)) "n" 0 2)
    /\ forall rho,
         (forall k, eval (upd rho "n" (INR k)) X = eval rho X) ->
         eval rho (Sum (Mul (legcoefs (@Rayleigh scat_angle_spec None None))
                          (legendre (Symbol "n") X)) "n" 0 2)
         = (3 / (16 * PI) * (1 + eval rho X * eval rho X))%R.
Proof.
  apply (@Rayleigh_expansion_is_closed_form scat_angle_spec None None
           (Num (3 # 10)) (Num (4 # 10)) (Num (1 # 10)) (Num (2 # 10)) "mono").
  reflexivity.
Defined.

Lemma LinCombV_phase_function_is_weighted_sum_witness :
  exists obj,
    @LinCombV scat_angle_spec list_set_nodup weights_04_06 None None = Ok obj
    /\ LinCombV_omega obj = None /\ LinCombV_tau obj = None
    /\ (exists W, In W weights_04_06 /\ ncoefs (snd W) = Some (LinCombV_ncoefs obj))
    /\ (forall W k, In W weights_04_06 -> ncoefs (snd W) = Some k ->
          (k <= LinCombV_ncoefs obj)%Z)
    /\ forall t_0 t_ex p_0 p_ex,
         LinCombV_p obj t_0 t_ex p_0 p_ex
         = weighted_sum (fun V => p V t_0 t_ex p_0 p_ex) weights_04_06.
Proof.
  apply (@LinCombV_phase_function_is_weighted_sum scat_angle_spec list_set_nodup
           list_set_nodup_perm None None weights_04_06); reflexivity.
Defined.

Lemma class_expansion_is_weighted_sum_witness :
  exists Vd X m,
    Vdummy_of weights_04_06
      (np_where (map (same_a ((4 # 10)%Q, rayleigh)) weights_04_06)) = Ok Vd
    /\ ncoefs Vd = Some m
    /\ (forall W k, In W (filter (same_a ((4 # 10)%Q, rayleigh)) weights_04_06) ->
          ncoefs (snd W) = Some k -> (k <= m)%Z)
    /\ @legexpansion scat_angle_spec Vd
         (Num (3 # 10)) (Num (4 # 10)) (Num (1 # 10)) (Num (2 # 10)) "ffff"
       = Ok (Sum (Mul (legcoefs Vd) (legendre (Symbol "n") X)) "n" 0 (m - 1))
    /\ forall rho,
         eval rho (Sum (Mul (legcoefs Vd) (legendre (Symbol "n") X)) "n" 0 (m - 1))
         = weighted_sum
             (fun W => eval rho (Sum (Mul (legcoefs W) (legendre (Symbol "n") X))
                                   "n" 0 (m - 1)))
             (filter (same_a ((4 # 10)%Q, rayleigh)) weights_04_06).
Proof.
  apply (@class_expansion_is_weighted_sum scat_angle_spec weights_04_06
           ((4 # 10)%Q, rayleigh)
           (Num (3 # 10)) (Num (4 # 10)) (Num (1 # 10)) (Num (2 # 10)) "ffff");
    [reflexivity | now left | reflexivity].
Defined.

Lemma LinCombV_of_one_component_witness :
  exists obj e e',
    @LinCombV scat_angle_spec list_set_nodup [(1%Q, rayleigh)] None None = Ok obj
    /\ LinCombV_ncoefs obj = 3%Z
    /\ (forall x_0 x_ex y_0 y_ex,
          LinCombV_p obj x_0 x_ex y_0 y_ex = p rayleigh x_0 x_ex y_0 y_ex)
    /\ LinCombV_legexpansion obj
         (Num (3 # 10)) (Num (4 # 10)) (Num (1 # 10)) (Num (2 # 10)) "mono" = Ok e
    /\ @legexpansion scat_angle_spec rayleigh
         (Num (3 # 10)) (Num (4 # 10)) (Num (1 # 10)) (Num (2 # 10)) "mono" = Ok e'
    /\ forall rho, eval rho e = eval rho e'.
Proof.
  apply (@LinCombV_of_one_component scat_angle_spec list_set_nodup
           list_set_nodup_perm None None rayleigh 3
           (Num (3 # 10)) (Num (4 # 10)) (Num (1 # 10)) (Num (2 # 10)) "mono");
    [reflexivity | lia | reflexivity].
Defined.

(** A Rayleigh function (a = [-1, 1, 1]) and a Henyey-Greenstein function
    with a = [1, 1, 1] fall into two classes of one member each. *)
Example Vcombiner_separates_classes :
  equal_a list_set_nodup weights_04_06 = [[0%nat]; [1%nat]]
  /\ class_members weights_04_06 ((4 # 10)%Q, rayleigh) = [((4 # 10)%Q, rayleigh)]
  /\ class_members weights_04_06 ((6 # 10)%Q, henyey_greenstein)
     = [((6 # 10)%Q, henyey_greenstein)].
Proof.
  split; [reflexivity |].
  rewrite <- !filter_same_a. split; reflexivity.
Qed.
